(** * circleci-cli, [cmd/orb.go]: the orb sub-commands

    A shallow embedding of [listOrbs], [processErrors], [orbValidateQuery],
    [validateOrb] and [expandOrb], with the collaborators the file calls
    (the GraphQL client, the file system, [queryAPI], the logger) passed in
    explicitly, followed by the properties of the pagination loop and of the
    validation workflow. *)

From Stdlib Require Import ZArith Lia Ascii String.
From stdpp Require Import gmap strings list fin_maps.

Local Open Scope string_scope.
Local Open Scope list_scope.

(* ===================================================================== *)
(** * Strings, buffers and formatting                                     *)
(* ===================================================================== *)

(** The line feed that Go writes as a backslash followed by n. *)
Definition LF : string := String (Ascii.ascii_of_nat 10) EmptyString.

(** [bytes.Buffer]: only [WriteString] and [String] are used by the file. *)
Module Buffer.
Definition t : Type := string.
Definition empty : t := EmptyString.
Definition WriteString (s : string) (b : t) : t := b +:+ s.
Definition String (b : t) : string := b.
End Buffer.

(** [fmt.Sprintf], for the one verb the file uses, [%s]. *)
Fixpoint Sprintf (format : string) (args : list string) : string :=
  match format with
  | EmptyString => EmptyString
  | String c rest =>
      match c, rest with
      | "%"%char, String "s"%char rest' =>
          match args with
          | a :: args' => a +:+ Sprintf rest' args'
          | [] => "%!s(MISSING)" +:+ Sprintf rest' []
          end
      | _, _ => String c (Sprintf rest args)
      end
  end.

(** [s] occurs in [t]. *)
Definition contains (t s : string) : Prop :=
  exists pre post, t = pre +:+ s +:+ post.

(** ASCII lower-casing, used to compare message texts up to case. *)
Definition lower_ascii (c : Ascii.ascii) : Ascii.ascii :=
  let n := Ascii.nat_of_ascii c in
  if (65 <=? n)%nat && (n <=? 90)%nat then Ascii.ascii_of_nat (n + 32) else c.

Fixpoint lower (s : string) : string :=
  match s with
  | EmptyString => EmptyString
  | String c rest => String (lower_ascii c) (lower rest)
  end.

(* ===================================================================== *)
(** * Errors ([github.com/pkg/errors])                                    *)
(* ===================================================================== *)

(** The error values the file can see.  [fundamental] is what [errors.New]
    builds, [withMessage] what [errors.Wrap] builds around a cause, and
    [foreign] stands for an error of any other type handed over by a
    collaborator (the network stack, the JSON decoder, the file system). *)
Inductive error : Type :=
| fundamental (msg : string)
| withMessage (cause : error) (msg : string)
| foreign (msg : string).

(** The method [Error()]. *)
Fixpoint Error (e : error) : string :=
  match e with
  | fundamental msg => msg
  | withMessage cause msg => msg +:+ ": " +:+ Error cause
  | foreign msg => msg
  end.

Module errors.
Definition New (message : string) : error := fundamental message.

(** [Wrap] and [Wrapf] are only ever called under an [err != nil] guard,
    so they take the error itself ([Wrap] of nil is nil and never
    arises). *)
Definition Wrap (err : error) (message : string) : error :=
  withMessage err message.

Definition Wrapf (err : error) (format : string) (args : list string)
  : error :=
  withMessage err (Sprintf format args).

(** [Cause]: the innermost error of a chain of wraps. *)
Fixpoint Cause (e : error) : error :=
  match e with
  | withMessage cause _ => Cause cause
  | _ => e
  end.
End errors.

(** The two error kinds of the workflow.  A validation failure is made by
    [errors.New] and has no cause; a wrapped failure of a collaborator
    carries its cause and a context. *)
Definition is_wrapped (e : error) : bool :=
  match e with withMessage _ _ => true | _ => false end.

(* ===================================================================== *)
(** * The logger                                                          *)
(* ===================================================================== *)

(** [Logger] is an output sink; its state is the sequence of messages
    written so far, oldest first. *)
Module Logger.
Definition t : Type := list string.
Definition Info (msg : string) (lg : t) : t := lg ++ [msg].
Definition Infof (format : string) (args : list string) (lg : t) : t :=
  lg ++ [Sprintf format args].
End Logger.

(* ===================================================================== *)
(** * Validation responses and [processErrors]                            *)
(* ===================================================================== *)

Record ErrorEntry : Type := { Message : string }.

Record OrbConfig_t : Type := {
  Valid : bool;
  SourceYaml : string;
  OutputYaml : string;
  Errors : list ErrorEntry
}.

Record orbConfigResponse : Type := { OrbConfig : OrbConfig_t }.

(** The zero value of [var response orbConfigResponse]. *)
Definition orbConfigResponse_zero : orbConfigResponse :=
  {| OrbConfig := {| Valid := false; SourceYaml := EmptyString;
                     OutputYaml := EmptyString; Errors := [] |} |}.

(** [func (response orbConfigResponse) processErrors() error]: the loop over
    the indices of [Errors] is a left fold over the entries. *)
Definition processErrors (response : orbConfigResponse) : error :=
  let buffer := Buffer.WriteString LF Buffer.empty in
  let buffer :=
    fold_left
      (fun buffer entry =>
         let buffer := Buffer.WriteString "-- " buffer in
         let buffer := Buffer.WriteString (Message entry) buffer in
         Buffer.WriteString ("," +:+ LF) buffer)
      (Errors (OrbConfig response)) buffer in
  errors.New (Buffer.String buffer).

(** The aggregate as the specification words it: a leading line feed, then
    one line per message, made of the marker, the text, a comma and a line
    feed. *)
Definition aggregate_lines (messages : list string) : string :=
  LF +:+ String.concat EmptyString
           (map (fun m => "-- " +:+ m +:+ "," +:+ LF) messages).

(* ===================================================================== *)
(** * GraphQL requests and the listing response                           *)
(* ===================================================================== *)

Module graphql.
(** [graphql.Request]: the query text and the variables set so far. *)
Record Request : Type := { q : string; vars : gmap string string }.

Definition NewRequest (q : string) : Request := {| q := q; vars := ∅ |}.

(** [req.Var(key, value)] overwrites the variable in place. *)
Definition Var (key value : string) (req : Request) : Request :=
  {| q := q req; vars := <[key := value]> (vars req) |}.
End graphql.

Record Node_t : Type := { Name : string }.

Record Edge : Type := { Cursor : string; Node : Node_t }.

Record PageInfo_t : Type := { HasNextPage : bool }.

Record Orbs_t : Type := {
  TotalCount : Z;
  Edges : list Edge;
  PageInfo : PageInfo_t
}.

Record orbList : Type := { Orbs : Orbs_t }.

(** The zero value of [var result orbList]. *)
Definition orbList_zero : orbList :=
  {| Orbs := {| TotalCount := 0; Edges := [];
                PageInfo := {| HasNextPage := false |} |} |}.

Definition TAB : string := String (Ascii.ascii_of_nat 9) EmptyString.

(** The raw string literal handed to [graphql.NewRequest], line by line. *)
Definition listOrbsQuery : string :=
  String.concat LF
    [ EmptyString;
      "query ListOrbs ($after: String!) {";
      "  orbs(first: 20, after: $after) {";
      TAB +:+ "totalCount,";
      "    edges {";
      "      cursor,";
      "      node {";
      "        name";
      "      }";
      "    }";
      "    pageInfo {";
      "      hasNextPage";
      "    }";
      "  }";
      "}";
      TAB ].

(** The result of one pass through a loop body. *)
Inductive control (A : Type) : Type :=
| Continue (st : A)
| Return (err : option error) (st : A).
Arguments Continue {A} st.
Arguments Return {A} err st.

(** How far a run has come: still in the loop, or returned. *)
Inductive status : Type :=
| Running
| Returned (err : option error).

(** One round-trip as seen on the wire: the request as sent, the error
    [client.Run] returned (if any) and [result] as it left it. *)
Record Trip : Type := {
  sent : graphql.Request;
  failure : option error;
  received : orbList
}.

(** The text of one log line of [listOrbs]. *)
Definition orb_line (name : string) : string := "Orb: " +:+ name +:+ LF.

(** The inner loop [for i := range result.Orbs.Edges]. *)
Definition range_Edges (edges : list Edge) (currentCursor : string)
    (lg : Logger.t) : string * Logger.t :=
  fold_left
    (fun '(currentCursor, lg) edge =>
       (Cursor edge,
        Logger.Infof ("Orb: %s" +:+ LF) [Name (Node edge)] lg))
    edges (currentCursor, lg).

Section ListOrbs.
(** The GraphQL client: [client.Run(ctx, request, &result)] talks to the
    server (state [Conn]), may overwrite [result] and returns an error or
    nil. *)
Context {Conn : Type}.
Variable Run : Conn -> graphql.Request -> orbList -> Conn * option error * orbList.

(** The local variables of [listOrbs], the logger, and the record of the
    round-trips made so far (oldest first). *)
Record ListState : Type := {
  conn : Conn;
  request : graphql.Request;
  result : orbList;
  currentCursor : string;
  logger : Logger.t;
  wire : list Trip
}.

(** The body of the outer [for] loop. *)
Definition iteration (st : ListState) : control ListState :=
  let request := graphql.Var "after" (currentCursor st) (request st) in
  let '(conn', err, result') := Run (conn st) request (result st) in
  let wire' := wire st ++ [{| sent := request; failure := err; received := result' |}] in
  match err with
  | Some e =>
      Return (Some (errors.Wrap e "GraphQL query failed"))
        {| conn := conn'; request := request; result := result';
           currentCursor := currentCursor st; logger := logger st;
           wire := wire' |}
  | None =>
      let '(cursor', lg') :=
        range_Edges (Edges (Orbs result')) (currentCursor st) (logger st) in
      let st' :=
        {| conn := conn'; request := request; result := result';
           currentCursor := cursor'; logger := lg'; wire := wire' |} in
      if negb (HasNextPage (PageInfo (Orbs result')))
      then Return None st'
      else Continue st'
  end.

(** The outer loop, run for at most [fuel] round-trips. *)
Fixpoint loop (fuel : nat) (st : ListState) : status * ListState :=
  match fuel with
  | O => (Running, st)
  | S fuel' =>
      match iteration st with
      | Continue st' => loop fuel' st'
      | Return err st' => (Returned err, st')
      end
  end.

(** [listOrbs], on a fresh client and a logger holding [lg]. *)
Definition listOrbs_init (c : Conn) (lg : Logger.t) : ListState :=
  {| conn := c; request := graphql.NewRequest listOrbsQuery;
     result := orbList_zero; currentCursor := EmptyString;
     logger := lg; wire := [] |}.

Definition listOrbs (fuel : nat) (c : Conn) (lg : Logger.t)
  : status * ListState :=
  loop fuel (listOrbs_init c lg).
End ListOrbs.

(* ===================================================================== *)
(** * The validation workflow                                             *)
(* ===================================================================== *)

(** The raw string literal of [orbValidateQuery]. *)
Definition validateOrbQuery : string :=
  String.concat LF
    [ EmptyString;
      TAB +:+ TAB +:+ "query ValidateOrb ($orb: String!) {";
      TAB +:+ TAB +:+ TAB +:+ "orbConfig(orbYaml: $orb) {";
      TAB +:+ TAB +:+ TAB +:+ TAB +:+ "valid,";
      TAB +:+ TAB +:+ TAB +:+ TAB +:+ "errors { message },";
      TAB +:+ TAB +:+ TAB +:+ TAB +:+ "sourceYaml,";
      TAB +:+ TAB +:+ TAB +:+ TAB +:+ "outputYaml";
      TAB +:+ TAB +:+ TAB +:+ "}";
      TAB +:+ TAB +:+ "}" ].

Section Validation.
(** [ioutil.ReadFile], with the file's bytes read as a string. *)
Variable ReadFile : string -> error + string.

(** [queryAPI(ctx, query, variables, &response)], defined elsewhere in the
    package: it may overwrite [response] and returns an error or nil. *)
Variable queryAPI :
  string -> gmap string string -> orbConfigResponse ->
  option error * orbConfigResponse.

(** The package variable bound to the [--path] flag. *)
Variable orbPath : string.

Definition loadOrbYaml (path : string) : error + string :=
  match ReadFile path with
  | inl err => inl (errors.Wrapf err "Could not load orb file at %s" [path])
  | inr orb => inr orb
  end.

(** Returns [(nil, err)] or [(&response, nil)]: a sum. *)
Definition orbValidateQuery : error + orbConfigResponse :=
  let query := validateOrbQuery in
  match loadOrbYaml orbPath with
  | inl err => inl err
  | inr orb =>
      let variables : gmap string string := {[ "orb" := orb ]} in
      let response := orbConfigResponse_zero in
      let '(err, response) := queryAPI query variables response in
      match err with
      | Some e => inl (errors.Wrap e "Unable to validate orb")
      | None => inr response
      end
  end.

Definition validateOrb (lg : Logger.t) : option error * Logger.t :=
  match orbValidateQuery with
  | inl err => (Some err, lg)
  | inr response =>
      if negb (Valid (OrbConfig response))
      then (Some (processErrors response), lg)
      else (None, Logger.Infof "Orb at %s is valid" [orbPath] lg)
  end.

Definition expandOrb (lg : Logger.t) : option error * Logger.t :=
  match orbValidateQuery with
  | inl err => (Some err, lg)
  | inr response =>
      if negb (Valid (OrbConfig response))
      then (Some (processErrors response), lg)
      else (None, Logger.Info (OutputYaml (OrbConfig response)) lg)
  end.
End Validation.

(* ===================================================================== *)
(** * Vocabulary of the properties                                        *)
(* ===================================================================== *)

(** A validation failure is an error made by [processErrors]. *)
Definition ValidationFailure (e : error) : Prop :=
  exists response, e = processErrors response.

(** The messages of a response, in order. *)
Definition messages (response : orbConfigResponse) : list string :=
  Message <$> Errors (OrbConfig response).

(** The names carried by a page, in server order. *)
Definition names (page : orbList) : list string :=
  (fun e => Name (Node e)) <$> Edges (Orbs page).

Definition hasNextPage (page : orbList) : bool :=
  HasNextPage (PageInfo (Orbs page)).

(** The value of the [after] variable of a request. *)
Definition after (req : graphql.Request) : option string :=
  graphql.vars req !! "after".

(** The cursor held once [page] has been walked, when [c] was held
    before: the cursor of its last entry, or [c] if it has none. *)
Definition advance (c : string) (page : orbList) : string :=
  default c (last (Cursor <$> Edges (Orbs page))).

Definition cursor_through (c : string) (pages : list orbList) : string :=
  fold_left advance pages c.

(** The last cursor of the most recent page that had entries, or the empty
    string when no page has had entries. *)
Definition most_recent_cursor (pages : list orbList) : string :=
  match last (filter (fun p => Edges (Orbs p) <> []) pages) with
  | Some p => default EmptyString (last (Cursor <$> Edges (Orbs p)))
  | None => EmptyString
  end.

(** What a round-trip wrote to the log: nothing when it failed, one line
    per entry otherwise. *)
Definition emitted_by (t : Trip) : list string :=
  match failure t with
  | Some _ => []
  | None => orb_line <$> names (received t)
  end.

(** A run of round-trips that starts with cursor [c] held: each request is
    the listing query with [after] set to the cursor held at that point. *)
Fixpoint chain (c : string) (w : list Trip) : Prop :=
  match w with
  | [] => True
  | t :: w' =>
      graphql.q (sent t) = listOrbsQuery /\
      after (sent t) = Some c /\
      chain (advance c (received t)) w'
  end.

Section Serving.
Context {Conn : Type}.
Variable Run : Conn -> graphql.Request -> orbList -> Conn * option error * orbList.

(** The server answers the requests of the loop, from the point where
    [c] is the cursor held, with the pages [pages], one per request. *)
Fixpoint serves (cn : Conn) (req : graphql.Request) (res : orbList)
    (c : string) (pages : list orbList) : Prop :=
  match pages with
  | [] => True
  | p :: ps =>
      let req' := graphql.Var "after" c req in
      exists cn', Run cn req' res = (cn', None, p) /\
                  serves cn' req' p (advance c p) ps
  end.

End Serving.

(** A round-trip that succeeded and announced a further page. *)
Definition went_on (t : Trip) : Prop :=
  failure t = None /\ hasNextPage (received t) = true.

(** What the record of round-trips looks like for each status of a run:
    while the loop runs every round-trip succeeded and announced a further
    page; a return is caused by the last round-trip, which either failed
    or brought a page with no successor. *)
Definition outcome_ok (s : status) (w : list Trip) : Prop :=
  match s with
  | Running => Forall went_on w
  | Returned None =>
      exists w' t, w = w' ++ [t] /\ Forall went_on w' /\
                   failure t = None /\ hasNextPage (received t) = false
  | Returned (Some err) =>
      exists w' t e, w = w' ++ [t] /\ Forall went_on w' /\
                     failure t = Some e /\
                     err = errors.Wrap e "GraphQL query failed"
  end.

Section Consistency.
Context {Conn : Type}.
Variable Run : Conn -> graphql.Request -> orbList -> Conn * option error * orbList.

(** The recorded round-trip is an exchange with the client. *)
Definition answered (t : Trip) : Prop :=
  exists cn res cn', Run cn (sent t) res = (cn', failure t, received t).

(** The state [st] of a run that started with the log [lg0] and has
    status [s]. *)
Definition consistent (lg0 : Logger.t) (s : status) (st : @ListState Conn)
  : Prop :=
  chain EmptyString (wire st) /\
  Forall answered (wire st) /\
  logger st = lg0 ++ concat (emitted_by <$> wire st) /\
  outcome_ok s (wire st) /\
  (s = Running ->
   graphql.q (request st) = listOrbsQuery /\
   currentCursor st = cursor_through EmptyString (received <$> wire st)).
End Consistency.

(** A client that replays a script, one reply per request, whatever the
    request; a failing reply leaves [result] as it was, and so does a
    request made once the script is used up. *)
Definition scripted (script : list (error + orbList))
    (req : graphql.Request) (res : orbList)
  : list (error + orbList) * option error * orbList :=
  match script with
  | [] => ([], Some (foreign "EOF"), res)
  | inl e :: rest => (rest, Some e, res)
  | inr p :: rest => (rest, None, p)
  end.

(** Building pages for examples. *)
Definition mkEdge (cursor name : string) : Edge :=
  {| Cursor := cursor; Node := {| Name := name |} |}.

Definition mkPage (edges : list Edge) (more : bool) : orbList :=
  {| Orbs := {| TotalCount := Z.of_nat (length edges); Edges := edges;
                PageInfo := {| HasNextPage := more |} |} |}.

Definition mkResponse (valid : bool) (output : string) (errs : list string)
  : orbConfigResponse :=
  {| OrbConfig := {| Valid := valid; SourceYaml := EmptyString;
                     OutputYaml := output;
                     Errors := (fun m => {| Message := m |}) <$> errs |} |}.

(* ===================================================================== *)
(** * Further vocabulary                                                  *)
(* ===================================================================== *)

(** The string holds no line feed. *)
Fixpoint lf_free (s : string) : bool :=
  match s with
  | EmptyString => true
  | String c rest =>
      if Ascii.eqb c (Ascii.ascii_of_nat 10) then false else lf_free rest
  end.

(** A client that answers every request with a page announcing a further
    page. *)
Definition always_more {Conn : Type}
    (Run : Conn -> graphql.Request -> orbList -> Conn * option error * orbList)
  : Prop :=
  forall cn req res,
    exists cn' p, Run cn req res = (cn', None, p) /\ hasNextPage p = true.

(** A server that keeps no state: its answer is a function of the [after]
    variable of the request alone. *)
Definition stateless {Conn : Type} (serve : option string -> orbList)
    (cn : Conn) (req : graphql.Request) (res : orbList)
  : Conn * option error * orbList :=
  (cn, None, serve (after req)).

(** The error [loadOrbYaml] makes of a read failure. *)
Definition load_failure (e : error) (path : string) : error :=
  errors.Wrapf e "Could not load orb file at %s" [path].

(* ===================================================================== *)
(** * Strings                                                             *)
(* ===================================================================== *)

Lemma str_app_cons (x : ascii) (s t : string) :
  String x s +:+ t = String x (s +:+ t).
Proof. reflexivity. Qed.

Lemma str_app_nil_l (s : string) : EmptyString +:+ s = s.
Proof. reflexivity. Qed.

Lemma str_app_nil_r (s : string) : s +:+ EmptyString = s.
Proof.
  induction s as [|c s IH]; [reflexivity |].
  now rewrite str_app_cons, IH.
Qed.

Lemma str_app_assoc (a b c : string) : (a +:+ b) +:+ c = a +:+ (b +:+ c).
Proof.
  induction a as [|x a IH]; [reflexivity |].
  now rewrite !str_app_cons, IH.
Qed.

Lemma concat_nosep_cons (x : string) (xs : list string) :
  String.concat EmptyString (x :: xs) = x +:+ String.concat EmptyString xs.
Proof.
  destruct xs as [|y ys]; [| reflexivity].
  change (String.concat EmptyString [x]) with x.
  change (String.concat EmptyString []) with EmptyString.
  now rewrite str_app_nil_r.
Qed.

Lemma contains_refl (s : string) : contains s s.
Proof.
  exists EmptyString, EmptyString.
  now rewrite str_app_nil_l, str_app_nil_r.
Qed.

Lemma contains_app_l (t u s : string) : contains t s -> contains (t +:+ u) s.
Proof.
  intros (pre & post & ->). exists pre, (post +:+ u).
  now rewrite !str_app_assoc.
Qed.

Lemma contains_app_r (t u s : string) : contains u s -> contains (t +:+ u) s.
Proof.
  intros (pre & post & ->). exists (t +:+ pre), post.
  now rewrite !str_app_assoc.
Qed.

Lemma Sprintf_orb_line (name : string) :
  Sprintf ("Orb: %s" +:+ LF) [name] = orb_line name.
Proof. reflexivity. Qed.

(* ===================================================================== *)
(** * Error aggregation                                                   *)
(* ===================================================================== *)

(** The fold of [processErrors] appends one formatted line per entry. *)
Lemma processErrors_fold (entries : list ErrorEntry) (buffer : Buffer.t) :
  fold_left
    (fun buffer entry =>
       let buffer := Buffer.WriteString "-- " buffer in
       let buffer := Buffer.WriteString (Message entry) buffer in
       Buffer.WriteString ("," +:+ LF) buffer)
    entries buffer
  = buffer +:+ String.concat EmptyString
                 (map (fun m => "-- " +:+ m +:+ "," +:+ LF) (Message <$> entries)).
Proof.
  revert buffer. induction entries as [|e entries IH]; intros buffer.
  - simpl. now rewrite str_app_nil_r.
  - cbn [fold_left]. rewrite IH. cbn [fmap list_fmap map].
    rewrite concat_nosep_cons. unfold Buffer.WriteString.
    now rewrite !str_app_assoc.
Qed.

Lemma processErrors_message (response : orbConfigResponse) :
  Error (processErrors response) = aggregate_lines (messages response).
Proof.
  unfold processErrors, aggregate_lines, messages.
  rewrite processErrors_fold. reflexivity.
Qed.

Lemma processErrors_fundamental (response : orbConfigResponse) :
  processErrors response = fundamental (aggregate_lines (messages response)).
Proof.
  rewrite <- processErrors_message. reflexivity.
Qed.

Lemma messages_mkResponse (valid : bool) (output : string) (errs : list string) :
  messages (mkResponse valid output errs) = errs.
Proof.
  unfold messages, mkResponse. simpl.
  induction errs as [|m errs IH]; simpl; [reflexivity | now f_equal].
Qed.

(** Every message of the list occurs in the aggregate. *)
Lemma aggregate_lines_contains (msgs : list string) (m : string) :
  m ∈ msgs -> contains (aggregate_lines msgs) m.
Proof.
  intros Hin. unfold aggregate_lines. apply contains_app_r.
  induction Hin as [m msgs | m m' msgs Hin IH].
  - rewrite map_cons, concat_nosep_cons. apply contains_app_l.
    exists "-- ", ("," +:+ LF). reflexivity.
  - rewrite map_cons, concat_nosep_cons. now apply contains_app_r.
Qed.

(** C4: for every ordered sequence of error messages, the error made by
    [processErrors] has as its message a leading line feed followed by, for
    each message in order, the marker, the text, a comma and a line feed;
    for the messages a and b it is the line feed, then the two lines
    [-- a,] and [-- b,], each closed by a line feed. *)
Theorem C4_processErrors_format :
  (forall response : orbConfigResponse,
     Error (processErrors response) = aggregate_lines (messages response)) /\
  (forall (valid : bool) (output : string) (msgs : list string),
     Error (processErrors (mkResponse valid output msgs))
     = LF +:+ String.concat EmptyString
                (map (fun m => "-- " +:+ m +:+ "," +:+ LF) msgs)) /\
  Error (processErrors (mkResponse false EmptyString ["a"; "b"]))
  = LF +:+ "-- a," +:+ LF +:+ "-- b," +:+ LF.
Proof.
  split; [exact processErrors_message | split].
  - intros valid output msgs.
    now rewrite processErrors_message, messages_mkResponse.
  - reflexivity.
Qed.

(* ===================================================================== *)
(** * The validation workflow: success and failure                        *)
(* ===================================================================== *)

Section ValidationFacts.
Variable ReadFile : string -> error + string.
Variable queryAPI :
  string -> gmap string string -> orbConfigResponse ->
  option error * orbConfigResponse.
Variable orbPath : string.

Lemma validateOrb_decoded (response : orbConfigResponse) (lg : Logger.t) :
  orbValidateQuery ReadFile queryAPI orbPath = inr response ->
  validateOrb ReadFile queryAPI orbPath lg
  = if Valid (OrbConfig response)
    then (None, lg ++ ["Orb at " +:+ orbPath +:+ " is valid"])
    else (Some (processErrors response), lg).
Proof.
  intros Hq. unfold validateOrb. rewrite Hq.
  destruct (Valid (OrbConfig response)); reflexivity.
Qed.

Lemma expandOrb_decoded (response : orbConfigResponse) (lg : Logger.t) :
  orbValidateQuery ReadFile queryAPI orbPath = inr response ->
  expandOrb ReadFile queryAPI orbPath lg
  = if Valid (OrbConfig response)
    then (None, lg ++ [OutputYaml (OrbConfig response)])
    else (Some (processErrors response), lg).
Proof.
  intros Hq. unfold expandOrb. rewrite Hq.
  destruct (Valid (OrbConfig response)); reflexivity.
Qed.

(** A failing [queryAPI] makes [orbValidateQuery] return the wrap of its
    error. *)
Lemma orbValidateQuery_failed (orb : string) (e : error)
    (response : orbConfigResponse) :
  ReadFile orbPath = inr orb ->
  queryAPI validateOrbQuery {[ "orb" := orb ]} orbConfigResponse_zero
  = (Some e, response) ->
  orbValidateQuery ReadFile queryAPI orbPath
  = inl (withMessage e "Unable to validate orb").
Proof.
  intros Hread Hq. unfold orbValidateQuery, loadOrbYaml.
  rewrite Hread, Hq. reflexivity.
Qed.
End ValidationFacts.

Lemma processErrors_head (response : orbConfigResponse) :
  String.get 0 (Error (processErrors response)) = Some (Ascii.ascii_of_nat 10).
Proof. rewrite processErrors_message. reflexivity. Qed.

Lemma wrapped_not_ValidationFailure (e : error) (ctx : string) :
  ~ ValidationFailure (withMessage e ctx).
Proof.
  intros [response H]. rewrite processErrors_fundamental in H. discriminate.
Qed.

(** C5: for every decoded response with [valid] true, [validateOrb] returns
    nil (after logging the success line) and [expandOrb] returns nil after
    writing exactly the response's [outputYaml]; nothing is asked of the
    response's error list, which may be non-empty. *)
Theorem C5_valid_response_succeeds
    (ReadFile : string -> error + string)
    (queryAPI : string -> gmap string string -> orbConfigResponse ->
                option error * orbConfigResponse)
    (orbPath : string) (response : orbConfigResponse) (lg : Logger.t) :
  orbValidateQuery ReadFile queryAPI orbPath = inr response ->
  Valid (OrbConfig response) = true ->
  validateOrb ReadFile queryAPI orbPath lg
  = (None, lg ++ ["Orb at " +:+ orbPath +:+ " is valid"]) /\
  expandOrb ReadFile queryAPI orbPath lg
  = (None, lg ++ [OutputYaml (OrbConfig response)]).
Proof.
  intros Hq Hvalid.
  rewrite (validateOrb_decoded _ _ _ _ _ Hq), (expandOrb_decoded _ _ _ _ _ Hq).
  rewrite Hvalid. split; reflexivity.
Qed.

(** The response [{valid: true, outputYaml: "x: 1"}], here with a stray
    error entry: validation succeeds and expansion writes [x: 1]. *)
Lemma C5_valid_response_succeeds_witness :
  let ReadFile := fun _ : string => inr "jobs: {}" : error + string in
  let queryAPI :=
    fun (_ : string) (_ : gmap string string) (_ : orbConfigResponse) =>
      (@None error, mkResponse true "x: 1" ["stray"]) in
  validateOrb ReadFile queryAPI "orb.yml" []
  = (None, ["Orb at orb.yml is valid"]) /\
  expandOrb ReadFile queryAPI "orb.yml" [] = (None, ["x: 1"]).
Proof.
  intros ReadFile queryAPI.
  apply (C5_valid_response_succeeds ReadFile queryAPI "orb.yml"
           (mkResponse true "x: 1" ["stray"]) []); reflexivity.
Defined.

(** C6: for every decoded response with [valid] false, [validateOrb] and
    [expandOrb] return the same error, the validation failure made by
    [processErrors], whose message contains every error message of the
    response; neither writes anything, so [expandOrb] emits no document. *)
Theorem C6_invalid_response_fails_identically
    (ReadFile : string -> error + string)
    (queryAPI : string -> gmap string string -> orbConfigResponse ->
                option error * orbConfigResponse)
    (orbPath : string) (response : orbConfigResponse) (lg : Logger.t) :
  orbValidateQuery ReadFile queryAPI orbPath = inr response ->
  Valid (OrbConfig response) = false ->
  exists failure : error,
    validateOrb ReadFile queryAPI orbPath lg = (Some failure, lg) /\
    expandOrb ReadFile queryAPI orbPath lg = (Some failure, lg) /\
    ValidationFailure failure /\
    failure = processErrors response /\
    forall m, m ∈ messages response -> contains (Error failure) m.
Proof.
  intros Hq Hvalid. exists (processErrors response).
  rewrite (validateOrb_decoded _ _ _ _ _ Hq), (expandOrb_decoded _ _ _ _ _ Hq).
  rewrite Hvalid. repeat split.
  - now exists response.
  - intros m Hm. rewrite processErrors_message.
    now apply aggregate_lines_contains.
Qed.

(** The response [{valid: false, errors: [{message: "bad field"}]}]: both
    commands fail with one error whose message contains [bad field]. *)
Lemma C6_invalid_response_fails_identically_witness :
  let ReadFile := fun _ : string => inr "jobs: {}" : error + string in
  let queryAPI :=
    fun (_ : string) (_ : gmap string string) (_ : orbConfigResponse) =>
      (@None error, mkResponse false EmptyString ["bad field"]) in
  exists failure : error,
    validateOrb ReadFile queryAPI "orb.yml" ["earlier"]
    = (Some failure, ["earlier"]) /\
    expandOrb ReadFile queryAPI "orb.yml" ["earlier"]
    = (Some failure, ["earlier"]) /\
    contains (Error failure) "bad field".
Proof.
  intros ReadFile queryAPI.
  destruct (C6_invalid_response_fails_identically ReadFile queryAPI "orb.yml"
              (mkResponse false EmptyString ["bad field"]) ["earlier"]
              eq_refl eq_refl)
    as (failure & Hv & He & _ & _ & Hall).
  exists failure. split; [exact Hv | split; [exact He |]].
  apply Hall. rewrite messages_mkResponse. apply list_elem_of_here.
Defined.

(** C7: for every decoded response with [valid] false and no error entry,
    [validateOrb] and [expandOrb] still return an error, never nil: the
    failure whose message is the aggregate of no line, the single leading
    line feed. *)
Theorem C7_invalid_without_errors_still_fails
    (ReadFile : string -> error + string)
    (queryAPI : string -> gmap string string -> orbConfigResponse ->
                option error * orbConfigResponse)
    (orbPath : string) (response : orbConfigResponse) (lg : Logger.t) :
  orbValidateQuery ReadFile queryAPI orbPath = inr response ->
  Valid (OrbConfig response) = false ->
  Errors (OrbConfig response) = [] ->
  validateOrb ReadFile queryAPI orbPath lg = (Some (errors.New LF), lg) /\
  expandOrb ReadFile queryAPI orbPath lg = (Some (errors.New LF), lg) /\
  processErrors response = errors.New LF /\
  Error (errors.New LF) = LF /\
  Error (errors.New LF) = aggregate_lines [].
Proof.
  intros Hq Hvalid Hnone.
  rewrite (validateOrb_decoded _ _ _ _ _ Hq), (expandOrb_decoded _ _ _ _ _ Hq).
  rewrite Hvalid.
  assert (processErrors response = errors.New LF) as ->.
  { unfold processErrors. rewrite Hnone. reflexivity. }
  repeat split.
Qed.

Lemma C7_invalid_without_errors_still_fails_witness :
  let ReadFile := fun _ : string => inr "jobs: {}" : error + string in
  let queryAPI :=
    fun (_ : string) (_ : gmap string string) (_ : orbConfigResponse) =>
      (@None error, mkResponse false EmptyString []) in
  validateOrb ReadFile queryAPI "orb.yml" [] = (Some (errors.New LF), []) /\
  expandOrb ReadFile queryAPI "orb.yml" [] = (Some (errors.New LF), []).
Proof.
  intros ReadFile queryAPI.
  destruct (C7_invalid_without_errors_still_fails ReadFile queryAPI "orb.yml"
              (mkResponse false EmptyString []) [] eq_refl eq_refl eq_refl)
    as (Hv & He & _).
  split; [exact Hv | exact He].
Defined.

(** C8: for every failure of [queryAPI] during the shared request and
    decode step, [orbValidateQuery] returns that error wrapped with the
    context [Unable to validate orb] (the words "unable to validate", read
    without regard to case, open its message); the wrap keeps its cause and
    is not a validation failure: no response makes [processErrors] return
    it or even an error with the same message, and both commands hand it to
    their caller unchanged. *)
Theorem C8_request_failure_is_wrapped
    (ReadFile : string -> error + string)
    (queryAPI : string -> gmap string string -> orbConfigResponse ->
                option error * orbConfigResponse)
    (orbPath orb : string) (e : error) (partial : orbConfigResponse)
    (lg : Logger.t) :
  ReadFile orbPath = inr orb ->
  queryAPI validateOrbQuery {[ "orb" := orb ]} orbConfigResponse_zero
  = (Some e, partial) ->
  exists err : error,
    orbValidateQuery ReadFile queryAPI orbPath = inl err /\
    err = errors.Wrap e "Unable to validate orb" /\
    Error err = "Unable to validate orb: " +:+ Error e /\
    String.prefix "unable to validate" (lower (Error err)) = true /\
    is_wrapped err = true /\
    errors.Cause err = errors.Cause e /\
    ~ ValidationFailure err /\
    (forall response, is_wrapped (processErrors response) = false) /\
    (forall response, Error err <> Error (processErrors response)) /\
    validateOrb ReadFile queryAPI orbPath lg = (Some err, lg) /\
    expandOrb ReadFile queryAPI orbPath lg = (Some err, lg).
Proof.
  intros Hread Hq.
  pose proof (orbValidateQuery_failed _ _ _ _ _ _ Hread Hq) as Hret.
  exists (withMessage e "Unable to validate orb").
  split; [exact Hret |].
  do 5 (split; [reflexivity |]).
  split; [apply wrapped_not_ValidationFailure |].
  split; [intros response; now rewrite processErrors_fundamental |].
  split.
  - intros response Heq.
    apply (f_equal (String.get 0)) in Heq.
    rewrite processErrors_head in Heq. discriminate Heq.
  - unfold validateOrb, expandOrb. rewrite Hret. split; reflexivity.
Qed.

(** A refused connection: the error comes back wrapped, and it is not the
    error an invalid document gives. *)
Lemma C8_request_failure_is_wrapped_witness :
  let ReadFile := fun _ : string => inr "jobs: {}" : error + string in
  let queryAPI :=
    fun (_ : string) (_ : gmap string string) (r : orbConfigResponse) =>
      (Some (foreign "connection refused"), r) in
  exists err : error,
    orbValidateQuery ReadFile queryAPI "orb.yml" = inl err /\
    Error err = "Unable to validate orb: connection refused" /\
    ~ ValidationFailure err.
Proof.
  intros ReadFile queryAPI.
  destruct (C8_request_failure_is_wrapped ReadFile queryAPI "orb.yml"
              "jobs: {}" (foreign "connection refused")
              orbConfigResponse_zero [] eq_refl eq_refl)
    as (err & Hret & _ & Hmsg & _ & _ & _ & Hnot & _).
  exists err. split; [exact Hret | split; [exact Hmsg | exact Hnot]].
Defined.

(* ===================================================================== *)
(** * The pagination loop                                                 *)
(* ===================================================================== *)

(** The inner loop leaves the cursor of the last entry in
    [currentCursor] and logs one line per entry, in order. *)
Lemma range_Edges_spec (edges : list Edge) (c : string) (lg : Logger.t) :
  range_Edges edges c lg
  = (default c (last (Cursor <$> edges)),
     lg ++ (orb_line <$> ((fun e => Name (Node e)) <$> edges))).
Proof.
  unfold range_Edges. revert c lg.
  induction edges as [|e edges IH]; intros c lg.
  - simpl. now rewrite app_nil_r.
  - cbn [fold_left]. rewrite IH. unfold Logger.Infof.
    rewrite Sprintf_orb_line, !fmap_cons, last_cons, <- app_assoc.
    destruct (last (Cursor <$> edges)); reflexivity.
Qed.

Lemma advance_no_entries (c : string) (page : orbList) :
  Edges (Orbs page) = [] -> advance c page = c.
Proof. unfold advance. now intros ->. Qed.

Lemma advance_last_entry (c : string) (page : orbList) (e : Edge) :
  last (Edges (Orbs page)) = Some e -> advance c page = Cursor e.
Proof. unfold advance. rewrite fmap_last. now intros ->. Qed.

Lemma cursor_through_snoc (c : string) (pages : list orbList) (p : orbList) :
  cursor_through c (pages ++ [p]) = advance (cursor_through c pages) p.
Proof. unfold cursor_through. now rewrite fold_left_app. Qed.

(** The cursor carried by the loop is the last cursor of the most recent
    page that had entries. *)
Lemma cursor_through_most_recent (pages : list orbList) :
  cursor_through EmptyString pages = most_recent_cursor pages.
Proof.
  induction pages as [|p pages IH] using rev_ind; [reflexivity |].
  rewrite cursor_through_snoc, IH. unfold most_recent_cursor.
  rewrite filter_app, filter_cons, filter_nil.
  destruct (decide (Edges (Orbs p) <> [])) as [Hne | Hemp].
  - rewrite last_snoc. unfold advance.
    destruct (Edges (Orbs p)) as [|e es]; [congruence |].
    rewrite fmap_cons, last_cons.
    destruct (last (Cursor <$> es)); reflexivity.
  - rewrite app_nil_r. apply advance_no_entries.
    destruct (Edges (Orbs p)); [reflexivity | exfalso; apply Hemp; discriminate].
Qed.

Lemma chain_snoc (c : string) (w : list Trip) (t : Trip) :
  chain c w ->
  graphql.q (sent t) = listOrbsQuery ->
  after (sent t) = Some (cursor_through c (received <$> w)) ->
  chain c (w ++ [t]).
Proof.
  revert c. induction w as [|t0 w IH]; intros c Hc Hq Ha.
  - simpl. auto.
  - destruct Hc as (Hq0 & Ha0 & Hc). simpl. repeat split; auto.
Qed.

(** In a chain the first request starts from the cursor held at the
    start. *)
Lemma chain_first (c : string) (w : list Trip) (t : Trip) :
  chain c w -> w !! 0%nat = Some t -> after (sent t) = Some c.
Proof.
  destruct w as [|t0 w]; [discriminate |].
  intros (_ & Ha & _) [= <-]. exact Ha.
Qed.

(** In a chain each request carries the cursor left by the round-trip
    before it. *)
Lemma chain_next (c : string) (w : list Trip) (i : nat) (t t' : Trip) :
  chain c w -> w !! i = Some t -> w !! S i = Some t' ->
  exists c0, after (sent t) = Some c0 /\
             after (sent t') = Some (advance c0 (received t)).
Proof.
  revert c i. induction w as [|t0 w IH]; intros c i Hc Hi Hi'; [discriminate |].
  destruct Hc as (_ & Ha & Hc). destruct i as [|i].
  - injection Hi as <-. exists c. split; [exact Ha |].
    now apply (chain_first _ w).
  - now apply (IH (advance c (received t0)) i).
Qed.

Lemma chain_query (c : string) (w : list Trip) :
  chain c w -> Forall (fun t => graphql.q (sent t) = listOrbsQuery) w.
Proof.
  revert c. induction w as [|t w IH]; intros c Hc; [constructor |].
  destruct Hc as (Hq & _ & Hc). constructor; eauto.
Qed.

Lemma after_Var (c : string) (req : graphql.Request) :
  after (graphql.Var "after" c req) = Some c.
Proof. unfold after, graphql.Var. simpl. apply lookup_insert_eq. Qed.

Lemma listOrbsQuery_first_20 :
  contains listOrbsQuery "orbs(first: 20, after: $after)".
Proof.
  exists (LF +:+ "query ListOrbs ($after: String!) {" +:+ LF +:+ "  ").
  eexists. reflexivity.
Qed.

Lemma listOrbsQuery_limit : contains listOrbsQuery "first: 20".
Proof.
  exists (LF +:+ "query ListOrbs ($after: String!) {" +:+ LF +:+ "  orbs(").
  eexists. reflexivity.
Qed.

Section ListFacts.
Context {Conn : Type}.
Variable Run : Conn -> graphql.Request -> orbList -> Conn * option error * orbList.

(** One pass through the loop body, given what the client answers. *)
Lemma iteration_spec (st : ListState) (cn' : Conn) (err : option error)
    (res' : orbList) :
  Run (conn st) (graphql.Var "after" (currentCursor st) (request st)) (result st)
  = (cn', err, res') ->
  let req := graphql.Var "after" (currentCursor st) (request st) in
  let w' := wire st ++ [{| sent := req; failure := err; received := res' |}] in
  iteration Run st
  = match err with
    | Some e =>
        Return (Some (withMessage e "GraphQL query failed"))
          {| conn := cn'; request := req; result := res';
             currentCursor := currentCursor st; logger := logger st;
             wire := w' |}
    | None =>
        let st' :=
          {| conn := cn'; request := req; result := res';
             currentCursor := advance (currentCursor st) res';
             logger := logger st ++ (orb_line <$> names res');
             wire := w' |} in
        if hasNextPage res' then Continue st' else Return None st'
    end.
Proof.
  intros HR req w'. subst req w'. unfold iteration. rewrite HR.
  destruct err as [e|]; [reflexivity |].
  rewrite range_Edges_spec. unfold hasNextPage.
  destruct (HasNextPage (PageInfo (Orbs res'))); reflexivity.
Qed.

(** The loop body keeps the state consistent. *)
Lemma iteration_consistent (lg0 : Logger.t) (st : ListState) :
  consistent Run lg0 Running st ->
  match iteration Run st with
  | Continue st' => consistent Run lg0 Running st'
  | Return err st' => consistent Run lg0 (Returned err) st'
  end.
Proof.
  intros (Hchain & Hans & Hlog & Hout & Hrun).
  destruct (Hrun eq_refl) as [Hq Hcur]. simpl in Hout.
  destruct (Run (conn st) (graphql.Var "after" (currentCursor st) (request st))
              (result st)) as [[cn' err] res'] eqn:HR.
  rewrite (iteration_spec _ _ _ _ HR).
  set (req := graphql.Var "after" (currentCursor st) (request st)).
  set (t := {| sent := req; failure := err; received := res' |}).
  assert (Hchain' : chain EmptyString (wire st ++ [t])).
  { apply chain_snoc; [exact Hchain | exact Hq |].
    simpl. unfold req. now rewrite after_Var, Hcur. }
  assert (Hans' : Forall (answered Run) (wire st ++ [t])).
  { apply Forall_app. split; [exact Hans |].
    constructor; [| constructor]. now exists (conn st), (result st), cn'. }
  assert (Hlog' : logger st ++ emitted_by t
                  = lg0 ++ concat (emitted_by <$> (wire st ++ [t]))).
  { rewrite fmap_app, concat_app, Hlog, <- app_assoc. simpl.
    now rewrite app_nil_r. }
  destruct err as [e|].
  - split; [exact Hchain' |]. split; [exact Hans' |].
    split; [simpl; rewrite <- Hlog'; simpl; now rewrite app_nil_r |].
    split; [| discriminate].
    exists (wire st), t, e. auto.
  - destruct (hasNextPage res') eqn:Hmore.
    + split; [exact Hchain' |]. split; [exact Hans' |].
      split; [exact Hlog' |]. split.
      * simpl. apply Forall_app. split; [exact Hout |].
        constructor; [| constructor]. split; [reflexivity | exact Hmore].
      * intros _. split; [exact Hq |]. cbn [currentCursor wire].
        rewrite fmap_app. change (received <$> [t]) with [res'].
        now rewrite cursor_through_snoc, Hcur.
    + split; [exact Hchain' |]. split; [exact Hans' |].
      split; [exact Hlog' |]. split; [| discriminate].
      exists (wire st), t. auto.
Qed.

Lemma loop_consistent (lg0 : Logger.t) (fuel : nat) (st : ListState) :
  consistent Run lg0 Running st ->
  consistent Run lg0 (loop Run fuel st).1 (loop Run fuel st).2.
Proof.
  revert st. induction fuel as [|fuel IH]; intros st Hst; [exact Hst |].
  simpl. pose proof (iteration_consistent lg0 st Hst) as Hit.
  destruct (iteration Run st) as [st' | err st']; [now apply IH | exact Hit].
Qed.

Lemma listOrbs_init_consistent (c : Conn) (lg : Logger.t) :
  consistent Run lg Running (listOrbs_init c lg).
Proof.
  repeat split; simpl; auto using app_nil_r.
  now rewrite app_nil_r.
Qed.

Lemma listOrbs_consistent (fuel : nat) (c : Conn) (lg : Logger.t) :
  consistent Run lg (listOrbs Run fuel c lg).1 (listOrbs Run fuel c lg).2.
Proof. apply loop_consistent, listOrbs_init_consistent. Qed.

(** A run that is still going after [fuel] round-trips goes on with the
    loop body. *)
Lemma loop_more (fuel : nat) (st st1 : ListState) :
  loop Run fuel st = (Running, st1) ->
  loop Run (S fuel) st
  = match iteration Run st1 with
    | Continue st2 => (Running, st2)
    | Return err st2 => (Returned err, st2)
    end.
Proof.
  revert st. induction fuel as [|fuel IH]; intros st H.
  - injection H as ->. simpl. now destruct (iteration Run st1).
  - simpl in H. cbn [loop].
    destruct (iteration Run st) as [st' | err st']; [| discriminate].
    rewrite <- (IH st' H). reflexivity.
Qed.

(** Once the loop has returned, more fuel changes nothing. *)
Lemma loop_returned (fuel fuel' : nat) (st st' : ListState) (err : option error) :
  loop Run fuel st = (Returned err, st') -> (fuel <= fuel')%nat ->
  loop Run fuel' st = (Returned err, st').
Proof.
  revert fuel' st. induction fuel as [|fuel IH]; intros fuel' st H Hle.
  - discriminate.
  - destruct fuel' as [|fuel']; [lia |]. simpl in *.
    destruct (iteration Run st) as [st1 | err1 st1]; [| exact H].
    apply IH; [exact H | lia].
Qed.

(** A run still going after [fuel] round-trips has made exactly [fuel]. *)
Lemma loop_running_length (fuel : nat) (st st' : ListState) (s : status) :
  loop Run fuel st = (s, st') ->
  (length (wire st') <= length (wire st) + fuel)%nat /\
  (s = Running -> length (wire st') = (length (wire st) + fuel)%nat).
Proof.
  revert st. induction fuel as [|fuel IH]; intros st H.
  - injection H as <- <-. lia.
  - simpl in H.
    destruct (Run (conn st) (graphql.Var "after" (currentCursor st) (request st))
                (result st)) as [[cn' err] res'] eqn:HR.
    rewrite (iteration_spec _ _ _ _ HR) in H.
    destruct err as [e|].
    + injection H as <- <-. simpl. rewrite length_app. simpl.
      split; [lia | discriminate].
    + destruct (hasNextPage res').
      * apply IH in H. simpl in H. rewrite length_app in H. simpl in H.
        destruct H as [H1 H2].
        split; [lia | intros Hs; specialize (H2 Hs); lia].
      * injection H as <- <-. simpl. rewrite length_app. simpl.
        split; [lia | discriminate].
Qed.
End ListFacts.

(* ===================================================================== *)
(** * Pagination: complete traversals                                     *)
(* ===================================================================== *)

(** What successful round-trips wrote, in terms of the pages received. *)
Lemma emitted_by_succeeded (w : list Trip) :
  Forall (fun t => failure t = None) w ->
  concat (emitted_by <$> w) = orb_line <$> concat (names <$> (received <$> w)).
Proof.
  induction 1 as [|t w Ht _ IH]; [reflexivity |].
  rewrite !fmap_cons. cbn [concat]. rewrite fmap_app, IH.
  unfold emitted_by at 1. now rewrite Ht.
Qed.

Lemma went_on_succeeded (w : list Trip) :
  Forall went_on w -> Forall (fun t => failure t = None) w.
Proof. intros H. eapply Forall_impl; [exact H |]. now intros t [Hok _]. Qed.

(** Pages of which exactly the last has no successor. *)
Lemma pages_shape (pages : list orbList) :
  pages <> [] ->
  (forall i p, pages !! i = Some p ->
               hasNextPage p = (i <? length pages - 1)%nat) ->
  exists ps pl, pages = ps ++ [pl] /\
                Forall (fun p => hasNextPage p = true) ps /\
                hasNextPage pl = false.
Proof.
  destruct pages as [|pl ps _] using rev_ind; [congruence |].
  intros _ Hflag. exists ps, pl. rewrite length_app in Hflag. simpl in Hflag.
  split; [reflexivity | split].
  - apply Forall_lookup. intros i p Hi.
    rewrite (Hflag i p); [| now apply lookup_app_l_Some].
    apply Nat.ltb_lt. apply lookup_lt_Some in Hi. lia.
  - rewrite (Hflag (length ps) pl); [| now apply list_lookup_middle].
    apply Nat.ltb_ge. lia.
Qed.

Section Traversal.
Context {Conn : Type}.
Variable Run : Conn -> graphql.Request -> orbList -> Conn * option error * orbList.

(** Served the pages [ps ++ [pl]], of which only [pl] has no successor, the
    loop makes one round-trip per page and then returns nil. *)
Lemma loop_serves (ps : list orbList) (pl : orbList) (fuel : nat)
    (st : ListState) :
  serves Run (conn st) (request st) (result st) (currentCursor st) (ps ++ [pl]) ->
  Forall (fun p => hasNextPage p = true) ps ->
  hasNextPage pl = false ->
  (length ps < fuel)%nat ->
  exists st', loop Run fuel st = (Returned None, st') /\
              received <$> wire st' = (received <$> wire st) ++ ps ++ [pl].
Proof.
  revert fuel st. induction ps as [|p ps IH]; intros fuel st Hs Hmore Hlast Hfuel.
  - destruct fuel as [|fuel]; [simpl in Hfuel; lia |].
    destruct Hs as (cn' & HR & _). simpl.
    rewrite (iteration_spec _ _ _ _ _ HR), Hlast.
    eexists. split; [reflexivity |]. simpl. now rewrite fmap_app.
  - destruct fuel as [|fuel]; [simpl in Hfuel; lia |].
    destruct Hs as (cn' & HR & Hs). simpl.
    rewrite (iteration_spec _ _ _ _ _ HR).
    apply Forall_cons in Hmore as [Hp Hmore]. rewrite Hp. cbv zeta iota.
    match goal with
    | |- context [loop Run fuel ?st1] =>
        destruct (IH fuel st1) as (st' & Hloop & Hrec);
        [exact Hs | exact Hmore | exact Hlast | simpl in Hfuel; lia |]
    end.
    exists st'. split; [exact Hloop |]. rewrite Hrec. simpl.
    now rewrite fmap_app, <- app_assoc.
Qed.
End Traversal.

(** C1: for every sequence of N pages (N at least 1) in which page i
    announces a further page exactly when i < N-1, served in that order in
    answer to the requests of the loop, [listOrbs] returns nil once it has
    made exactly N round-trips, one per page, and what it has logged by then
    is one line per entry for the concatenation of the pages' entry lists,
    in server order. *)
Theorem C1_listOrbs_traverses_all_pages {Conn : Type}
    (Run : Conn -> graphql.Request -> orbList -> Conn * option error * orbList)
    (c : Conn) (lg : Logger.t) (pages : list orbList) (fuel : nat) :
  pages <> [] ->
  (forall i p, pages !! i = Some p ->
               hasNextPage p = (i <? length pages - 1)%nat) ->
  serves Run c (graphql.NewRequest listOrbsQuery) orbList_zero EmptyString pages ->
  (length pages <= fuel)%nat ->
  exists st,
    listOrbs Run fuel c lg = (Returned None, st) /\
    logger st = lg ++ (orb_line <$> concat (names <$> pages)) /\
    length (wire st) = length pages /\
    received <$> wire st = pages /\
    Forall (fun t => failure t = None) (wire st).
Proof.
  intros Hne Hflag Hserves Hfuel.
  destruct (pages_shape pages Hne Hflag) as (ps & pl & -> & Hmore & Hlast).
  rewrite length_app in Hfuel. simpl in Hfuel.
  destruct (loop_serves Run ps pl fuel (listOrbs_init c lg))
    as (st & Hloop & Hrec); [exact Hserves | exact Hmore | exact Hlast | lia |].
  simpl in Hrec. exists st. split; [exact Hloop |].
  pose proof (listOrbs_consistent Run fuel c lg) as Hcons.
  unfold listOrbs in Hcons. rewrite Hloop in Hcons. simpl in Hcons.
  destruct Hcons as (_ & _ & Hlog & (w' & t & Hw & Hwent & Hok & _) & _).
  assert (Hall : Forall (fun t => failure t = None) (wire st)).
  { rewrite Hw. apply Forall_app. split; [now apply went_on_succeeded |].
    constructor; [exact Hok | constructor]. }
  split; [| split; [| split; [exact Hrec | exact Hall]]].
  - now rewrite Hlog, (emitted_by_succeeded _ Hall), Hrec.
  - now rewrite <- Hrec, length_fmap.
Qed.

(** Two pages, the first announcing the second: two round-trips, the three
    names in order, and a nil return. *)
Lemma C1_listOrbs_traverses_all_pages_witness :
  let pages := [mkPage [mkEdge "c1" "a"; mkEdge "c2" "b"] true;
                mkPage [mkEdge "c3" "c"] false] in
  exists st,
    listOrbs scripted 2 (inr <$> pages) [] = (Returned None, st) /\
    logger st = [orb_line "a"; orb_line "b"; orb_line "c"] /\
    length (wire st) = 2%nat.
Proof.
  intros pages.
  destruct (C1_listOrbs_traverses_all_pages scripted (inr <$> pages) [] pages 2)
    as (st & Hret & Hlog & Hlen & _).
  - discriminate.
  - intros [|[|i]] p Hp; simpl in Hp; try discriminate;
      injection Hp as <-; reflexivity.
  - simpl. eexists. split; [reflexivity |]. eexists. split; reflexivity.
  - simpl. lia.
  - exists st. split; [exact Hret | split; [exact Hlog | exact Hlen]].
Defined.

(* ===================================================================== *)
(** * Pagination: cursors                                                 *)
(* ===================================================================== *)

(** C2: in every run of [listOrbs], however far it has come, the first
    request carries the empty string as [after], and a request that follows
    a round-trip which yielded entries carries the cursor of the last of
    those entries. *)
Theorem C2_cursor_forwarding {Conn : Type}
    (Run : Conn -> graphql.Request -> orbList -> Conn * option error * orbList)
    (fuel : nat) (c : Conn) (lg : Logger.t) :
  let st := (listOrbs Run fuel c lg).2 in
  (forall t, wire st !! 0%nat = Some t -> after (sent t) = Some EmptyString) /\
  (forall i t t' e,
     wire st !! i = Some t -> wire st !! S i = Some t' ->
     last (Edges (Orbs (received t))) = Some e ->
     after (sent t') = Some (Cursor e)).
Proof.
  intros st.
  destruct (listOrbs_consistent Run fuel c lg) as (Hchain & _).
  fold st in Hchain. split.
  - intros t Ht. now apply (chain_first _ (wire st)).
  - intros i t t' e Hi Hi' Hlast.
    destruct (chain_next _ _ _ _ _ Hchain Hi Hi') as (c0 & _ & Ha).
    now rewrite Ha, (advance_last_entry _ _ _ Hlast).
Qed.

(** Two pages: the first request starts from the empty cursor, the second
    from the cursor of the last entry of the first page. *)
Lemma C2_cursor_forwarding_witness :
  let pages := [mkPage [mkEdge "c1" "a"; mkEdge "c2" "b"] true;
                mkPage [mkEdge "c3" "c"] false] in
  let st := (listOrbs scripted 2 (inr <$> pages) []).2 in
  exists t t',
    wire st !! 0%nat = Some t /\ wire st !! 1%nat = Some t' /\
    after (sent t) = Some EmptyString /\ after (sent t') = Some "c2".
Proof.
  intros pages st.
  destruct (C2_cursor_forwarding scripted 2 (inr <$> pages) []) as [H0 Hnext].
  fold st in H0, Hnext.
  eexists. eexists.
  split; [reflexivity |]. split; [reflexivity |].
  split; [apply H0; reflexivity |].
  change (Some "c2") with (Some (Cursor (mkEdge "c2" "b"))).
  eapply (Hnext 0%nat); reflexivity.
Defined.

(** C3: when a round-trip brings a page with no entry but with
    [hasNextPage] set, [listOrbs] does not return: it logs nothing, keeps
    the cursor it held, and makes another round-trip whose [after] is the
    last cursor of the most recent page that had entries (the empty string
    if there was none). *)
Theorem C3_empty_page_keeps_cursor {Conn : Type}
    (Run : Conn -> graphql.Request -> orbList -> Conn * option error * orbList)
    (fuel : nat) (c : Conn) (lg : Logger.t) (st : ListState) (cn' : Conn)
    (p : orbList) :
  listOrbs Run fuel c lg = (Running, st) ->
  Run (conn st) (graphql.Var "after" (currentCursor st) (request st)) (result st)
  = (cn', None, p) ->
  Edges (Orbs p) = [] ->
  hasNextPage p = true ->
  exists st',
    listOrbs Run (S fuel) c lg = (Running, st') /\
    received <$> wire st' = (received <$> wire st) ++ [p] /\
    logger st' = logger st /\
    currentCursor st' = currentCursor st /\
    currentCursor st' = most_recent_cursor (received <$> wire st) /\
    exists t,
      wire (listOrbs Run (S (S fuel)) c lg).2 !! S fuel = Some t /\
      after (sent t) = Some (most_recent_cursor (received <$> wire st)).
Proof.
  intros Hrun HR Hempty Hmore.
  pose proof (listOrbs_consistent Run fuel c lg) as Hcons.
  rewrite Hrun in Hcons. destruct Hcons as (_ & _ & _ & _ & Hcur).
  destruct (Hcur eq_refl) as [_ Hcursor]. simpl in Hcursor.
  rewrite cursor_through_most_recent in Hcursor.
  pose proof (loop_more Run _ _ _ Hrun) as Hnext.
  rewrite (iteration_spec _ _ _ _ _ HR), Hmore in Hnext. cbv zeta iota in Hnext.
  match type of Hnext with _ = (Running, ?s) => set (st' := s) in * end.
  assert (Hlen : length (wire st') = S fuel).
  { destruct (loop_running_length Run _ _ _ _ Hnext) as [_ Hl].
    rewrite (Hl eq_refl). reflexivity. }
  exists st'. split; [exact Hnext |].
  split; [subst st'; simpl; now rewrite fmap_app |].
  split.
  { subst st'. cbn [logger]. unfold names. rewrite Hempty. apply app_nil_r. }
  assert (Hkeep : currentCursor st' = currentCursor st).
  { subst st'. cbn [currentCursor]. now apply advance_no_entries. }
  split; [exact Hkeep |].
  split; [now rewrite Hkeep |].
  pose proof (loop_more Run _ _ _ Hnext) as Hnext2.
  destruct (Run (conn st') (graphql.Var "after" (currentCursor st') (request st'))
              (result st')) as [[cn2 err2] res2] eqn:HR2.
  rewrite (iteration_spec _ _ _ _ _ HR2) in Hnext2.
  unfold listOrbs.
  eexists. split.
  - destruct err2 as [e2|]; [| destruct (hasNextPage res2)];
      rewrite Hnext2; cbn [snd wire]; now apply list_lookup_middle.
  - cbn [sent]. now rewrite after_Var, Hkeep, Hcursor.
Qed.

(** A first page with an entry, then an empty page that announces more:
    the third request again asks for what follows the cursor [c1]. *)
Lemma C3_empty_page_keeps_cursor_witness :
  let script := [inr (mkPage [mkEdge "c1" "a"] true);
                 inr (mkPage [] true);
                 inr (mkPage [mkEdge "c2" "b"] false)] in
  exists t,
    wire (listOrbs scripted 3 script []).2 !! 2%nat = Some t /\
    after (sent t) = Some "c1".
Proof.
  intros script.
  destruct (C3_empty_page_keeps_cursor scripted 1 script []
              (listOrbs scripted 1 script []).2
              [inr (mkPage [mkEdge "c2" "b"] false)] (mkPage [] true)
              eq_refl eq_refl eq_refl eq_refl)
    as (st' & _ & _ & _ & _ & _ & t & Ht & Hafter).
  exists t. split; [exact Ht | exact Hafter].
Defined.

(* ===================================================================== *)
(** * Pagination: transport failures and the page size                    *)
(* ===================================================================== *)

(** C9: when the client fails on a round-trip, the first one (k = 0) or
    any later one (after k successful round-trips), [listOrbs] returns at
    once the client's error wrapped with the context of the query (the
    client's error stays its cause), which is not a validation failure; the failed round-trip is the last one made
    and nothing of it is logged, so a failure on the first round-trip
    leaves the log as it was. *)
Theorem C9_transport_failure_aborts {Conn : Type}
    (Run : Conn -> graphql.Request -> orbList -> Conn * option error * orbList)
    (c : Conn) (lg : Logger.t) (k fuel : nat) (st : ListState) (cn' : Conn)
    (e : error) (res' : orbList) :
  listOrbs Run k c lg = (Running, st) ->
  Run (conn st) (graphql.Var "after" (currentCursor st) (request st)) (result st)
  = (cn', Some e, res') ->
  (k < fuel)%nat ->
  exists st',
    listOrbs Run fuel c lg
    = (Returned (Some (errors.Wrap e "GraphQL query failed")), st') /\
    Error (errors.Wrap e "GraphQL query failed")
    = "GraphQL query failed: " +:+ Error e /\
    is_wrapped (errors.Wrap e "GraphQL query failed") = true /\
    errors.Cause (errors.Wrap e "GraphQL query failed") = errors.Cause e /\
    ~ ValidationFailure (errors.Wrap e "GraphQL query failed") /\
    length (wire st') = S k /\
    (exists t, wire st' = wire st ++ [t] /\ failure t = Some e) /\
    logger st' = logger st /\
    logger st' = lg ++ (orb_line <$> concat (names <$> (received <$> wire st))) /\
    (k = 0%nat -> logger st' = lg).
Proof.
  intros Hrun HR Hfuel.
  pose proof (listOrbs_consistent Run k c lg) as Hcons.
  rewrite Hrun in Hcons. destruct Hcons as (_ & _ & Hlog & Hout & _).
  simpl in Hlog, Hout.
  rewrite (emitted_by_succeeded _ (went_on_succeeded _ Hout)) in Hlog.
  destruct (loop_running_length Run _ _ _ _ Hrun) as [_ Hlen].
  specialize (Hlen eq_refl). simpl in Hlen.
  pose proof (loop_more Run _ _ _ Hrun) as Hnext.
  rewrite (iteration_spec _ _ _ _ _ HR) in Hnext.
  eexists. split.
  { apply (loop_returned Run (S k)); [exact Hnext | lia]. }
  do 3 (split; [reflexivity |]).
  split; [apply wrapped_not_ValidationFailure |].
  cbn [wire logger].
  split; [rewrite length_app, Hlen; simpl; lia |].
  split; [eexists; split; reflexivity |].
  split; [reflexivity |].
  split; [exact Hlog |].
  intros ->. rewrite Hlog.
  destruct (wire st); [apply app_nil_r | discriminate].
Qed.

(** The connection is refused on the first round-trip: nothing is logged and
    the wrapped error comes back; it is refused on the second: the first
    page stays logged, the run ends there. *)
Lemma C9_transport_failure_aborts_witness :
  let refused := foreign "connection refused" in
  (exists st',
     listOrbs scripted 5 [inl refused] []
     = (Returned (Some (withMessage refused "GraphQL query failed")), st') /\
     logger st' = []) /\
  (exists st',
     listOrbs scripted 5
       [inr (mkPage [mkEdge "c1" "a"] true); inl refused;
        inr (mkPage [mkEdge "c2" "b"] false)] []
     = (Returned (Some (withMessage refused "GraphQL query failed")), st') /\
     logger st' = [orb_line "a"] /\ length (wire st') = 2%nat).
Proof.
  intros refused. split.
  - destruct (C9_transport_failure_aborts scripted [inl refused] [] 0 5
                (listOrbs scripted 0 [inl refused] []).2 [] refused orbList_zero
                eq_refl eq_refl)
      as (st' & Hret & _ & _ & _ & _ & _ & _ & _ & _ & Hlog); [lia |].
    exists st'. split; [exact Hret | exact (Hlog eq_refl)].
  - set (script := [inr (mkPage [mkEdge "c1" "a"] true); inl refused;
                    inr (mkPage [mkEdge "c2" "b"] false)]).
    destruct (C9_transport_failure_aborts scripted script [] 1 5
                (listOrbs scripted 1 script []).2
                [inr (mkPage [mkEdge "c2" "b"] false)] refused
                (mkPage [mkEdge "c1" "a"] true)
                eq_refl eq_refl)
      as (st' & Hret & _ & _ & _ & _ & Hlen & _ & _ & Hlog & _); [lia |].
    exists st'. split; [exact Hret | split; [exact Hlog | exact Hlen]].
Defined.

(** C10: every request [listOrbs] makes carries the one listing query,
    which asks for [first: 20], but the command enforces no page size of
    its own: a round-trip that succeeds logs exactly one line per entry of
    the page received, however many there are, and one that fails logs
    none; so a round-trip yields at most 20 resources exactly when the page
    the server returns holds at most 20 entries. *)
Theorem C10_page_size_requested_not_enforced {Conn : Type}
    (Run : Conn -> graphql.Request -> orbList -> Conn * option error * orbList)
    (c : Conn) (lg : Logger.t) (k : nat) (st : ListState) :
  listOrbs Run k c lg = (Running, st) ->
  let st' := (listOrbs Run (S k) c lg).2 in
  contains listOrbsQuery "orbs(first: 20, after: $after)" /\
  Forall (fun t => graphql.q (sent t) = listOrbsQuery) (wire st') /\
  exists t new,
    wire st' = wire st ++ [t] /\
    Run (conn st) (sent t) (result st) = (conn st', failure t, received t) /\
    logger st' = logger st ++ new /\
    new = match failure t with
          | Some _ => []
          | None => (fun e => orb_line (Name (Node e)))
                      <$> Edges (Orbs (received t))
          end /\
    length new = match failure t with
                 | Some _ => 0%nat
                 | None => length (Edges (Orbs (received t)))
                 end /\
    (failure t = None ->
     forall n, (length new <= n)%nat <->
               (length (Edges (Orbs (received t))) <= n)%nat).
Proof.
  intros Hrun st'.
  split; [exact listOrbsQuery_first_20 |]. split.
  { destruct (listOrbs_consistent Run (S k) c lg) as (Hchain & _).
    now apply chain_query in Hchain. }
  subst st'. unfold listOrbs. rewrite (loop_more Run _ _ _ Hrun).
  destruct (Run (conn st) (graphql.Var "after" (currentCursor st) (request st))
              (result st)) as [[cn' err] res'] eqn:HR.
  rewrite (iteration_spec _ _ _ _ _ HR).
  destruct err as [e|]; [| destruct (hasNextPage res')];
    cbn [snd wire logger conn];
    eexists; eexists; (split; [reflexivity |]); cbn [sent failure received];
    (split; [exact HR |]).
  - split; [symmetry; apply app_nil_r |]. split; [reflexivity |].
    split; [reflexivity | discriminate].
  - split; [reflexivity |]. unfold names.
    split; [now rewrite <- list_fmap_compose |].
    split; [now rewrite !length_fmap |]. intros _ n. now rewrite !length_fmap.
  - split; [reflexivity |]. unfold names.
    split; [now rewrite <- list_fmap_compose |].
    split; [now rewrite !length_fmap |]. intros _ n. now rewrite !length_fmap.
Qed.

(** The first round-trip of a run whose server answers the request for 20
    entries with a page of 21: all 21 are logged. *)
Lemma C10_page_size_requested_not_enforced_witness :
  let page := mkPage (replicate 21 (mkEdge "c" "orb")) false in
  let st' := (listOrbs scripted 1 [inr page] []).2 in
  exists t new,
    wire st' = [t] /\ logger st' = new /\ length new = 21%nat.
Proof.
  intros page st'.
  destruct (C10_page_size_requested_not_enforced scripted [inr page] [] 0
              (listOrbs scripted 0 [inr page] []).2 eq_refl)
    as (_ & _ & t & new & Hw & _ & Hlog & _ & Hlen & _).
  fold st' in Hw, Hlog.
  exists t, new. split; [exact Hw | split; [exact Hlog |]].
  rewrite Hlen. apply (f_equal last) in Hw. rewrite last_snoc in Hw.
  injection Hw as <-. reflexivity.
Defined.

(** One round-trip can yield more than 20 resources: the request asks for
    [first: 20], the server answers with a page of 21 entries, and
    [listOrbs] logs all 21 before it returns nil. *)
Lemma C10_one_round_trip_yields_21 :
  let page := mkPage (replicate 21 (mkEdge "c" "orb")) false in
  exists st t,
    listOrbs scripted 1 [inr page] [] = (Returned None, st) /\
    wire st = [t] /\
    contains (graphql.q (sent t)) "first: 20" /\
    failure t = None /\
    logger st = replicate 21 (orb_line "orb") /\
    length (logger st) = 21%nat /\
    ~ (length (logger st) <= 20)%nat.
Proof.
  intros page. eexists. eexists.
  split; [reflexivity |]. split; [reflexivity |].
  split; [exact listOrbsQuery_limit |]. split; [reflexivity |].
  split; [reflexivity |]. split; [reflexivity |].
  cbn. lia.
Qed.

(* ===================================================================== *)
(** * Loading the orb file and the outcomes of the workflow               *)
(* ===================================================================== *)

Lemma Sprintf_load (path : string) :
  Sprintf "Could not load orb file at %s" [path]
  = "Could not load orb file at " +:+ path.
Proof.
  transitivity ("Could not load orb file at " +:+ (path +:+ EmptyString));
    [reflexivity | now rewrite str_app_nil_r].
Qed.

Lemma load_failure_message (e : error) (path : string) :
  Error (load_failure e path)
  = "Could not load orb file at " +:+ path +:+ ": " +:+ Error e.
Proof.
  unfold load_failure, errors.Wrapf. cbn [Error].
  now rewrite Sprintf_load, str_app_assoc.
Qed.

Lemma load_failure_head (e : error) (path : string) :
  String.get 0 (Error (load_failure e path)) = Some "C"%char.
Proof. rewrite load_failure_message. reflexivity. Qed.

(** X1: [loadOrbYaml] hands the file's content back unchanged; when the
    read fails it returns the cause wrapped in an error whose message names
    the path: the fixed words, the path, a colon and the cause's message. *)
Theorem X1_loadOrbYaml_names_path
    (ReadFile : string -> error + string) (path : string) :
  match ReadFile path with
  | inr orb => loadOrbYaml ReadFile path = inr orb
  | inl e =>
      exists err,
        loadOrbYaml ReadFile path = inl err /\
        Error err = "Could not load orb file at " +:+ path +:+ ": " +:+ Error e /\
        contains (Error err) path /\
        errors.Cause err = errors.Cause e
  end.
Proof.
  unfold loadOrbYaml. destruct (ReadFile path) as [e | orb]; [| reflexivity].
  exists (load_failure e path). split; [reflexivity |].
  split; [apply load_failure_message |]. split; [| reflexivity].
  rewrite load_failure_message.
  exists "Could not load orb file at ", (": " +:+ Error e). reflexivity.
Qed.

Section Outcomes.
Variable ReadFile : string -> error + string.
Variable queryAPI :
  string -> gmap string string -> orbConfigResponse ->
  option error * orbConfigResponse.
Variable orbPath : string.

(** The four ways through [orbValidateQuery] and the test of [Valid]. *)
Lemma validateOrb_cases (lg : Logger.t) :
  (exists e, ReadFile orbPath = inl e /\
             validateOrb ReadFile queryAPI orbPath lg
             = (Some (load_failure e orbPath), lg) /\
             expandOrb ReadFile queryAPI orbPath lg
             = (Some (load_failure e orbPath), lg)) \/
  (exists orb e r,
     ReadFile orbPath = inr orb /\
     queryAPI validateOrbQuery {[ "orb" := orb ]} orbConfigResponse_zero
     = (Some e, r) /\
     validateOrb ReadFile queryAPI orbPath lg
     = (Some (errors.Wrap e "Unable to validate orb"), lg) /\
     expandOrb ReadFile queryAPI orbPath lg
     = (Some (errors.Wrap e "Unable to validate orb"), lg)) \/
  (exists orb r,
     ReadFile orbPath = inr orb /\
     queryAPI validateOrbQuery {[ "orb" := orb ]} orbConfigResponse_zero
     = (None, r) /\
     Valid (OrbConfig r) = false /\
     validateOrb ReadFile queryAPI orbPath lg = (Some (processErrors r), lg) /\
     expandOrb ReadFile queryAPI orbPath lg = (Some (processErrors r), lg)) \/
  (exists orb r,
     ReadFile orbPath = inr orb /\
     queryAPI validateOrbQuery {[ "orb" := orb ]} orbConfigResponse_zero
     = (None, r) /\
     Valid (OrbConfig r) = true /\
     validateOrb ReadFile queryAPI orbPath lg
     = (None, lg ++ ["Orb at " +:+ orbPath +:+ " is valid"]) /\
     expandOrb ReadFile queryAPI orbPath lg
     = (None, lg ++ [OutputYaml (OrbConfig r)])).
Proof.
  unfold validateOrb, expandOrb, orbValidateQuery, loadOrbYaml.
  destruct (ReadFile orbPath) as [e | orb] eqn:Hread.
  { left. exists e. auto. }
  right.
  destruct (queryAPI validateOrbQuery {[ "orb" := orb ]} orbConfigResponse_zero)
    as [[e|] r] eqn:Hq.
  { left. exists orb, e, r. auto. }
  right.
  destruct (Valid (OrbConfig r)) eqn:Hvalid.
  - right. exists orb, r. auto.
  - left. exists orb, r. auto.
Qed.
End Outcomes.

(** X2: when the orb file cannot be read, [validateOrb] and [expandOrb]
    return the load error and log nothing, and [queryAPI] plays no part:
    any two of them give the same outcome. *)
Theorem X2_unreadable_file_stops_before_query
    (ReadFile : string -> error + string)
    (queryAPI queryAPI' : string -> gmap string string -> orbConfigResponse ->
                          option error * orbConfigResponse)
    (orbPath : string) (e : error) (lg : Logger.t) :
  ReadFile orbPath = inl e ->
  orbValidateQuery ReadFile queryAPI orbPath = inl (load_failure e orbPath) /\
  orbValidateQuery ReadFile queryAPI' orbPath
  = orbValidateQuery ReadFile queryAPI orbPath /\
  validateOrb ReadFile queryAPI orbPath lg = (Some (load_failure e orbPath), lg) /\
  expandOrb ReadFile queryAPI' orbPath lg = (Some (load_failure e orbPath), lg) /\
  Error (load_failure e orbPath)
  = "Could not load orb file at " +:+ orbPath +:+ ": " +:+ Error e.
Proof.
  intros Hread.
  unfold validateOrb, expandOrb, orbValidateQuery, loadOrbYaml.
  rewrite Hread. repeat split. apply load_failure_message.
Qed.

Lemma X2_unreadable_file_stops_before_query_witness :
  let ReadFile := fun _ : string => inl (foreign "no such file") : error + string in
  let ok := fun (_ : string) (_ : gmap string string) (_ : orbConfigResponse) =>
              (@None error, mkResponse true "x: 1" []) in
  validateOrb ReadFile ok "orb.yml" []
  = (Some (load_failure (foreign "no such file") "orb.yml"), []) /\
  Error (load_failure (foreign "no such file") "orb.yml")
  = "Could not load orb file at orb.yml: no such file".
Proof.
  intros ReadFile ok.
  destruct (X2_unreadable_file_stops_before_query ReadFile ok ok "orb.yml"
              (foreign "no such file") [] eq_refl)
    as (_ & _ & Hv & _ & Hmsg).
  split; [exact Hv | exact Hmsg].
Defined.

(** X3: every error [validateOrb] returns is of exactly one of three
    kinds, told apart by the first character of the message: the load
    failure (the file could not be read), the wrapped failure of the
    request, or the validation failure of a response with [valid] false;
    [expandOrb] returns the same error. *)
Theorem X3_errors_of_the_workflow
    (ReadFile : string -> error + string)
    (queryAPI : string -> gmap string string -> orbConfigResponse ->
                option error * orbConfigResponse)
    (orbPath : string) (lg : Logger.t) (err : error) :
  (validateOrb ReadFile queryAPI orbPath lg).1 = Some err ->
  (expandOrb ReadFile queryAPI orbPath lg).1 = Some err /\
  ((exists e, ReadFile orbPath = inl e /\ err = load_failure e orbPath /\
              String.get 0 (Error err) = Some "C"%char) \/
   (exists orb e r,
      ReadFile orbPath = inr orb /\
      queryAPI validateOrbQuery {[ "orb" := orb ]} orbConfigResponse_zero
      = (Some e, r) /\
      err = errors.Wrap e "Unable to validate orb" /\
      String.get 0 (Error err) = Some "U"%char) \/
   (exists orb r,
      ReadFile orbPath = inr orb /\
      queryAPI validateOrbQuery {[ "orb" := orb ]} orbConfigResponse_zero
      = (None, r) /\
      Valid (OrbConfig r) = false /\ err = processErrors r /\
      String.get 0 (Error err) = Some (Ascii.ascii_of_nat 10))).
Proof.
  intros Herr.
  destruct (validateOrb_cases ReadFile queryAPI orbPath lg)
    as [(e & Hread & Hv & He)
       | [(orb & e & r & Hread & Hq & Hv & He)
         | [(orb & r & Hread & Hq & Hvalid & Hv & He)
           | (orb & r & Hread & Hq & Hvalid & Hv & He)]]];
    rewrite Hv in Herr; rewrite He; simpl in Herr;
    try discriminate Herr; injection Herr as <-; (split; [reflexivity |]).
  - left. exists e. repeat split; auto using load_failure_head.
  - right. left. exists orb, e, r. repeat split; auto.
  - right. right. exists orb, r. repeat split; auto using processErrors_head.
Qed.

Lemma X3_errors_of_the_workflow_witness :
  let ReadFile := fun _ : string => inr "jobs: {}" : error + string in
  let queryAPI :=
    fun (_ : string) (_ : gmap string string) (_ : orbConfigResponse) =>
      (@None error, mkResponse false EmptyString ["bad field"]) in
  (expandOrb ReadFile queryAPI "orb.yml" []).1
  = Some (processErrors (mkResponse false EmptyString ["bad field"])).
Proof.
  intros ReadFile queryAPI.
  exact (proj1 (X3_errors_of_the_workflow ReadFile queryAPI "orb.yml" []
                  (processErrors (mkResponse false EmptyString ["bad field"]))
                  eq_refl)).
Defined.

(** X4: [validateOrb] returns nil exactly when the file was read, the
    request went through and the response has [valid] true; it then logs
    one line naming the path. *)
Theorem X4_validateOrb_succeeds_iff
    (ReadFile : string -> error + string)
    (queryAPI : string -> gmap string string -> orbConfigResponse ->
                option error * orbConfigResponse)
    (orbPath : string) (lg : Logger.t) :
  (validateOrb ReadFile queryAPI orbPath lg).1 = None <->
  exists orb r,
    ReadFile orbPath = inr orb /\
    queryAPI validateOrbQuery {[ "orb" := orb ]} orbConfigResponse_zero
    = (None, r) /\
    Valid (OrbConfig r) = true.
Proof.
  destruct (validateOrb_cases ReadFile queryAPI orbPath lg)
    as [(e & Hread & Hv & _)
       | [(orb & e & r & Hread & Hq & Hv & _)
         | [(orb & r & Hread & Hq & Hvalid & Hv & _)
           | (orb & r & Hread & Hq & Hvalid & Hv & _)]]];
    rewrite Hv; simpl; split;
    try discriminate;
    try (intros (orb' & r' & Hread' & Hq' & Hvalid'); congruence).
  intros _. exists orb, r. auto.
Qed.

Lemma X4_validateOrb_succeeds_iff_witness :
  let ReadFile := fun _ : string => inr "jobs: {}" : error + string in
  let queryAPI :=
    fun (_ : string) (_ : gmap string string) (_ : orbConfigResponse) =>
      (@None error, mkResponse true "x: 1" []) in
  (validateOrb ReadFile queryAPI "orb.yml" []).1 = None.
Proof.
  intros ReadFile queryAPI.
  apply (proj2 (X4_validateOrb_succeeds_iff ReadFile queryAPI "orb.yml" [])).
  exists "jobs: {}", (mkResponse true "x: 1" []). repeat split.
Defined.

(** X5: on every outcome [validateOrb] and [expandOrb] return the same
    error or both nil; a failing command leaves the log untouched, a
    succeeding one appends exactly one message to it. *)
Theorem X5_commands_agree_and_log_once
    (ReadFile : string -> error + string)
    (queryAPI : string -> gmap string string -> orbConfigResponse ->
                option error * orbConfigResponse)
    (orbPath : string) (lg : Logger.t) :
  let v := validateOrb ReadFile queryAPI orbPath lg in
  let x := expandOrb ReadFile queryAPI orbPath lg in
  v.1 = x.1 /\
  match v.1 with
  | Some _ => v.2 = lg /\ x.2 = lg
  | None => exists m m', v.2 = lg ++ [m] /\ x.2 = lg ++ [m']
  end.
Proof.
  destruct (validateOrb_cases ReadFile queryAPI orbPath lg)
    as [(e & Hread & Hv & He)
       | [(orb & e & r & Hread & Hq & Hv & He)
         | [(orb & r & Hread & Hq & Hvalid & Hv & He)
           | (orb & r & Hread & Hq & Hvalid & Hv & He)]]];
    intros v x; subst v x; rewrite Hv, He; simpl; split; auto.
  eexists. eexists. split; reflexivity.
Qed.



(* ===================================================================== *)
(** * The aggregate as a text                                             *)
(* ===================================================================== *)

Lemma str_length_app (a b : string) :
  String.length (a +:+ b) = (String.length a + String.length b)%nat.
Proof.
  induction a as [|x a IH]; [reflexivity |].
  rewrite str_app_cons. simpl. now rewrite IH.
Qed.

Lemma aggregate_lines_cons (m : string) (msgs : list string) :
  aggregate_lines (m :: msgs)
  = LF +:+ "-- " +:+ m +:+ "," +:+ LF +:+
    String.concat EmptyString (map (fun m => "-- " +:+ m +:+ "," +:+ LF) msgs).
Proof.
  unfold aggregate_lines. rewrite map_cons, concat_nosep_cons.
  now rewrite !str_app_assoc.
Qed.

(** X6: the message made by [processErrors] is never empty: it counts one
    character for the leading line feed and, for each error message, the
    length of the message plus five (the marker, the comma and the line
    feed). *)
Theorem X6_processErrors_length (response : orbConfigResponse) :
  String.length (Error (processErrors response))
  = (1 + sum_list_with (fun m => String.length m + 5) (messages response))%nat.
Proof.
  rewrite processErrors_message.
  induction (messages response) as [|m msgs IH]; [reflexivity |].
  rewrite aggregate_lines_cons.
  unfold aggregate_lines in IH. rewrite str_length_app in IH.
  change (String.length LF) with 1%nat in IH.
  rewrite !str_length_app.
  change (String.length LF) with 1%nat.
  change (String.length "-- ") with 3%nat.
  change (String.length ",") with 1%nat.
  cbn [sum_list_with]. lia.
Qed.

Lemma lf_free_cons (c : ascii) (s : string) :
  lf_free (String c s) = true ->
  c <> Ascii.ascii_of_nat 10 /\ lf_free s = true.
Proof.
  cbn [lf_free]. destruct (Ascii.eqb_spec c (Ascii.ascii_of_nat 10)).
  - discriminate.
  - auto.
Qed.

(** A text without line feed ends where the comma and the line feed that
    close its line stand. *)
Lemma field_inj (m m' s s' : string) :
  lf_free m = true -> lf_free m' = true ->
  m +:+ String ","%char (String (Ascii.ascii_of_nat 10) s)
  = m' +:+ String ","%char (String (Ascii.ascii_of_nat 10) s') ->
  m = m' /\ s = s'.
Proof.
  revert m'. induction m as [|c m IH]; intros [|c' m'] Hm Hm' H.
  - rewrite !str_app_nil_l in H. injection H as <-. auto.
  - rewrite str_app_nil_l, str_app_cons in H. injection H as <- H.
    apply lf_free_cons in Hm' as [_ Hm'].
    destruct m' as [|d m'].
    + rewrite str_app_nil_l in H. discriminate H.
    + rewrite str_app_cons in H. injection H as <- _.
      apply lf_free_cons in Hm' as [Hd _]. congruence.
  - rewrite str_app_nil_l, str_app_cons in H. injection H as -> H.
    apply lf_free_cons in Hm as [_ Hm].
    destruct m as [|d m].
    + rewrite str_app_nil_l in H. discriminate H.
    + rewrite str_app_cons in H. injection H as -> _.
      apply lf_free_cons in Hm as [Hd _]. congruence.
  - rewrite !str_app_cons in H. injection H as <- H.
    apply lf_free_cons in Hm as [_ Hm]. apply lf_free_cons in Hm' as [_ Hm'].
    destruct (IH m' Hm Hm' H) as [<- <-]. auto.
Qed.

Lemma aggregate_lines_inj (l1 l2 : list string) :
  Forall (fun m => lf_free m = true) l1 ->
  Forall (fun m => lf_free m = true) l2 ->
  aggregate_lines l1 = aggregate_lines l2 -> l1 = l2.
Proof.
  intros H1. revert l2.
  induction H1 as [|m l1 Hm _ IH]; intros l2 H2 H; destruct H2 as [|m' l2 Hm' H2].
  - reflexivity.
  - rewrite aggregate_lines_cons in H. discriminate H.
  - rewrite aggregate_lines_cons in H. discriminate H.
  - rewrite !aggregate_lines_cons in H.
    injection H as H. apply field_inj in H as [<- H]; [| assumption ..].
    f_equal. apply IH; [exact H2 |].
    unfold aggregate_lines. now rewrite H.
Qed.

(** X7: as long as no error message holds a line feed, the message made
    by [processErrors] determines the error messages and their order: two
    responses with the same aggregate have the same messages. *)
Theorem X7_aggregate_determines_messages (r1 r2 : orbConfigResponse) :
  Forall (fun m => lf_free m = true) (messages r1) ->
  Forall (fun m => lf_free m = true) (messages r2) ->
  Error (processErrors r1) = Error (processErrors r2) ->
  messages r1 = messages r2.
Proof.
  intros H1 H2. rewrite !processErrors_message. now apply aggregate_lines_inj.
Qed.

Lemma X7_aggregate_determines_messages_witness :
  messages (mkResponse false EmptyString ["a"; "b"])
  = messages (mkResponse true "x: 1" ["a"; "b"]).
Proof.
  apply X7_aggregate_determines_messages.
  - repeat constructor.
  - repeat constructor.
  - reflexivity.
Defined.

(** X8: without that restriction the aggregate is ambiguous: one error
    message that holds a comma, a line feed and the marker gives the same
    text as two messages. *)
Theorem X8_aggregate_is_ambiguous :
  exists r1 r2 : orbConfigResponse,
    length (messages r1) = 1%nat /\ length (messages r2) = 2%nat /\
    processErrors r1 = processErrors r2.
Proof.
  exists (mkResponse false EmptyString ["a," +:+ LF +:+ "-- b"]),
         (mkResponse false EmptyString ["a"; "b"]).
  repeat split.
Qed.

(* ===================================================================== *)
(** * The pagination loop: returns, stalls and requests                   *)
(* ===================================================================== *)

(** X9: the inner loop over the entries of a page logs one line per entry,
    in order, after what was logged before, and leaves in [currentCursor]
    the cursor of the last entry; over a page without entries it changes
    neither. *)
Theorem X9_range_Edges_walks_the_page (edges : list Edge) (c : string)
    (lg : Logger.t) :
  range_Edges edges c lg
  = (match last edges with Some e => Cursor e | None => c end,
     lg ++ ((fun e => "Orb: " +:+ Name (Node e) +:+ LF) <$> edges)) /\
  length (range_Edges edges c lg).2 = (length lg + length edges)%nat /\
  range_Edges [] c lg = (c, lg).
Proof.
  rewrite range_Edges_spec, fmap_last. split; [| split].
  - f_equal; [now destruct (last edges) |].
    f_equal. rewrite <- list_fmap_compose. reflexivity.
  - cbn [snd]. now rewrite length_app, !length_fmap.
  - reflexivity.
Qed.

Section Returns.
Context {Conn : Type}.
Variable Run : Conn -> graphql.Request -> orbList -> Conn * option error * orbList.

(** A run that is still going goes on from where it is. *)
Lemma loop_add (fuel n : nat) (st0 st : ListState) :
  loop Run fuel st0 = (Running, st) ->
  loop Run (fuel + n) st0 = loop Run n st.
Proof.
  revert st0. induction fuel as [|fuel IH]; intros st0 H.
  - injection H as ->. reflexivity.
  - simpl in *. destruct (iteration Run st0) as [st1 | err st1];
      [now apply IH | discriminate].
Qed.

(** One more unit of fuel only adds to the record and to the log. *)
Lemma loop_step_prefix (fuel : nat) (st0 : ListState) :
  wire (loop Run fuel st0).2 `prefix_of` wire (loop Run (S fuel) st0).2 /\
  logger (loop Run fuel st0).2 `prefix_of` logger (loop Run (S fuel) st0).2.
Proof.
  destruct (loop Run fuel st0) as [[|err] st1] eqn:Hloop.
  - rewrite (loop_more Run _ _ _ Hloop).
    destruct (Run (conn st1) (graphql.Var "after" (currentCursor st1) (request st1))
                (result st1)) as [[cn' err] res'] eqn:HR.
    rewrite (iteration_spec _ _ _ _ _ HR).
    destruct err as [e|]; [| destruct (hasNextPage res')]; cbn [snd wire logger];
      split; try reflexivity; apply prefix_app_r; reflexivity.
  - rewrite (loop_returned Run fuel (S fuel) _ _ _ Hloop); [| lia].
    split; reflexivity.
Qed.

(** Any invariant of the loop body holds of every run. *)
Lemma loop_invariant (P : status -> @ListState Conn -> Prop) :
  (forall st, P Running st ->
              match iteration Run st with
              | Continue st' => P Running st'
              | Return err st' => P (Returned err) st'
              end) ->
  forall fuel st, P Running st -> P (loop Run fuel st).1 (loop Run fuel st).2.
Proof.
  intros Hstep fuel. induction fuel as [|fuel IH]; intros st Hst; [exact Hst |].
  simpl. specialize (Hstep st Hst).
  destruct (iteration Run st) as [st' | err st']; [now apply IH | exact Hstep].
Qed.
End Returns.

(** X10: whatever the client, when [listOrbs] returns nil it has made at
    least one round-trip, all round-trips succeeded, every page but the last
    announced a further page and the last did not, and the log holds,
    after what it held before, one line per entry of the pages received, in
    order; more fuel does not change the outcome. *)
Theorem X10_listOrbs_nil_return {Conn : Type}
    (Run : Conn -> graphql.Request -> orbList -> Conn * option error * orbList)
    (fuel : nat) (c : Conn) (lg : Logger.t) (st : ListState) :
  listOrbs Run fuel c lg = (Returned None, st) ->
  (exists w t,
     wire st = w ++ [t] /\ Forall went_on w /\
     failure t = None /\ hasNextPage (received t) = false) /\
  logger st = lg ++ (orb_line <$> concat (names <$> (received <$> wire st))) /\
  forall fuel', (fuel <= fuel')%nat ->
                listOrbs Run fuel' c lg = (Returned None, st).
Proof.
  intros Hret.
  pose proof (listOrbs_consistent Run fuel c lg) as Hcons.
  rewrite Hret in Hcons.
  destruct Hcons as (_ & _ & Hlog & (w & t & Hw & Hwent & Hok & Hlast) & _).
  simpl in Hlog, Hw. split; [exists w, t; auto | split].
  - rewrite Hlog. f_equal. apply emitted_by_succeeded.
    rewrite Hw. apply Forall_app. split; [now apply went_on_succeeded |].
    constructor; [exact Hok | constructor].
  - intros fuel' Hle. now apply (loop_returned Run fuel).
Qed.

Lemma X10_listOrbs_nil_return_witness :
  let script := [inr (mkPage [mkEdge "c1" "a"] true);
                 inr (mkPage [mkEdge "c2" "b"] false)] in
  logger (listOrbs scripted 2 script ["before"]).2
  = ["before"; orb_line "a"; orb_line "b"].
Proof.
  intros script.
  exact (proj1 (proj2 (X10_listOrbs_nil_return scripted 2 script ["before"]
                         (listOrbs scripted 2 script ["before"]).2 eq_refl))).
Defined.

(** X11: whatever the client, when [listOrbs] returns an error, the last
    round-trip failed and all the earlier ones succeeded and announced a
    further page; the error is the wrap of the error of that last call,
    never a validation failure, and the log holds the lines of the earlier
    pages only. *)
Theorem X11_listOrbs_error_return {Conn : Type}
    (Run : Conn -> graphql.Request -> orbList -> Conn * option error * orbList)
    (fuel : nat) (c : Conn) (lg : Logger.t) (st : ListState) (err : error) :
  listOrbs Run fuel c lg = (Returned (Some err), st) ->
  exists w t e,
    wire st = w ++ [t] /\ Forall went_on w /\ failure t = Some e /\
    err = errors.Wrap e "GraphQL query failed" /\
    Error err = "GraphQL query failed: " +:+ Error e /\
    ~ ValidationFailure err /\
    logger st = lg ++ (orb_line <$> concat (names <$> (received <$> w))).
Proof.
  intros Hret.
  pose proof (listOrbs_consistent Run fuel c lg) as Hcons.
  rewrite Hret in Hcons.
  destruct Hcons as (_ & _ & Hlog & (w & t & e & Hw & Hwent & Hfail & ->) & _).
  simpl in Hlog, Hw. exists w, t, e.
  do 4 (split; [auto |]). split; [reflexivity |].
  split; [apply wrapped_not_ValidationFailure |].
  rewrite Hlog, Hw, fmap_app, concat_app.
  rewrite (emitted_by_succeeded _ (went_on_succeeded _ Hwent)).
  simpl. unfold emitted_by. rewrite Hfail. simpl. now rewrite app_nil_r.
Qed.

Lemma X11_listOrbs_error_return_witness :
  let script := [inr (mkPage [mkEdge "c1" "a"] true);
                 inl (foreign "connection reset")] in
  exists w t,
    wire (listOrbs scripted 4 script []).2 = w ++ [t] /\
    failure t = Some (foreign "connection reset") /\
    logger (listOrbs scripted 4 script []).2
    = orb_line <$> concat (names <$> (received <$> w)).
Proof.
  intros script.
  destruct (X11_listOrbs_error_return scripted 4 script []
              (listOrbs scripted 4 script []).2
              (withMessage (foreign "connection reset") "GraphQL query failed")
              eq_refl)
    as (w & t & e & Hw & _ & Hfail & Herr & _ & _ & Hlog).
  exists w, t. injection Herr as <-.
  split; [exact Hw | split; [exact Hfail | exact Hlog]].
Defined.

(** X12: [listOrbs] has no bound of its own on the number of round-trips:
    against a client that always answers with a page announcing a further
    page, it is still in its loop after any number of round-trips. *)
Theorem X12_listOrbs_never_returns {Conn : Type}
    (Run : Conn -> graphql.Request -> orbList -> Conn * option error * orbList)
    (c : Conn) (lg : Logger.t) (fuel : nat) :
  always_more Run ->
  exists st, listOrbs Run fuel c lg = (Running, st) /\
             length (wire st) = fuel.
Proof.
  intros Hmore. induction fuel as [|fuel (st & Hrun & Hlen)].
  - eexists. split; reflexivity.
  - destruct (Hmore (conn st)
                (graphql.Var "after" (currentCursor st) (request st)) (result st))
      as (cn' & p & HR & Hp).
    pose proof (loop_more Run _ _ _ Hrun) as Hnext.
    rewrite (iteration_spec _ _ _ _ _ HR), Hp in Hnext.
    eexists. split; [exact Hnext |].
    cbn [wire]. rewrite length_app, Hlen. simpl. lia.
Qed.

Lemma X12_listOrbs_never_returns_witness :
  let Run := fun (cn : unit) (_ : graphql.Request) (_ : orbList) =>
               (cn, @None error, mkPage [mkEdge "c1" "a"] true) in
  exists st, listOrbs Run 7 tt [] = (Running, st) /\ length (wire st) = 7%nat.
Proof.
  intros Run. apply X12_listOrbs_never_returns.
  intros cn req res. exists cn, (mkPage [mkEdge "c1" "a"] true).
  split; reflexivity.
Defined.

(** X13: against a server that answers by the [after] cursor alone, a page
    without entries that announces a further page stalls [listOrbs] for
    good: the cursor never moves, so the same page comes back, nothing more
    is logged and the command never returns. *)
Theorem X13_empty_page_stalls {Conn : Type} (serve : option string -> orbList)
    (c : Conn) (lg : Logger.t) (fuel n : nat) (st : ListState) :
  listOrbs (stateless serve) fuel c lg = (Running, st) ->
  Edges (Orbs (serve (Some (currentCursor st)))) = [] ->
  hasNextPage (serve (Some (currentCursor st))) = true ->
  exists st',
    listOrbs (stateless serve) (fuel + n) c lg = (Running, st') /\
    currentCursor st' = currentCursor st /\
    logger st' = logger st /\
    length (wire st') = (fuel + n)%nat.
Proof.
  intros Hrun Hempty Hmore.
  unfold listOrbs. rewrite (loop_add _ _ n _ _ Hrun).
  destruct (loop_running_length _ _ _ _ _ Hrun) as [_ Hlen].
  specialize (Hlen eq_refl). simpl in Hlen. clear Hrun.
  revert st Hempty Hmore Hlen. revert fuel.
  induction n as [|n IH]; intros fuel st Hempty Hmore Hlen.
  - exists st. rewrite Nat.add_0_r. auto.
  - cbn [loop].
    assert (HR : stateless serve (conn st)
                   (graphql.Var "after" (currentCursor st) (request st))
                   (result st)
                 = (conn st, None, serve (Some (currentCursor st)))).
    { unfold stateless. now rewrite after_Var. }
    rewrite (iteration_spec _ _ _ _ _ HR), Hmore. cbv zeta iota.
    match goal with
    | |- context [loop _ n ?s] =>
        destruct (IH (S fuel) s) as (st' & Hloop & Hcur & Hlog & Hlen')
    end.
    + cbn [currentCursor]. now rewrite advance_no_entries.
    + cbn [currentCursor]. now rewrite advance_no_entries.
    + cbn [wire]. rewrite length_app, Hlen. simpl. lia.
    + exists st'. split; [exact Hloop |].
      cbn [currentCursor logger] in Hcur, Hlog.
      rewrite advance_no_entries in Hcur by exact Hempty.
      unfold names in Hlog. rewrite Hempty in Hlog. simpl in Hlog.
      rewrite app_nil_r in Hlog.
      split; [exact Hcur | split; [exact Hlog | lia]].
Qed.

(** A server with one entry at the start and, after it, an empty page that
    announces more: after 2 + 5 round-trips the command is still running
    and has logged the one entry only. *)
Lemma X13_empty_page_stalls_witness :
  let serve := fun a : option string =>
                 if decide (a = Some EmptyString)
                 then mkPage [mkEdge "c1" "a"] true
                 else mkPage [] true in
  exists st',
    listOrbs (stateless serve) 7 tt [] = (Running, st') /\
    logger st' = [orb_line "a"].
Proof.
  intros serve.
  destruct (X13_empty_page_stalls serve tt [] 2 5
              (listOrbs (stateless serve) 2 tt []).2)
    as (st' & Hrun & _ & Hlog & _); [reflexivity .. |].
  exists st'. split; [exact Hrun | exact Hlog].
Defined.

(** X14: the record of round-trips and the log only ever grow: what a run
    has sent and logged after some number of round-trips is a prefix of
    what it has sent and logged later on, whether the run has returned in
    between or not. *)
Theorem X14_listOrbs_output_is_kept {Conn : Type}
    (Run : Conn -> graphql.Request -> orbList -> Conn * option error * orbList)
    (c : Conn) (lg : Logger.t) (fuel fuel' : nat) :
  (fuel <= fuel')%nat ->
  lg `prefix_of` logger (listOrbs Run fuel c lg).2 /\
  wire (listOrbs Run fuel c lg).2 `prefix_of` wire (listOrbs Run fuel' c lg).2 /\
  logger (listOrbs Run fuel c lg).2 `prefix_of` logger (listOrbs Run fuel' c lg).2.
Proof.
  intros Hle. split.
  - destruct (listOrbs_consistent Run fuel c lg) as (_ & _ & Hlog & _).
    rewrite Hlog. now apply prefix_app_r.
  - unfold listOrbs. induction Hle as [|fuel' _ [IHw IHl]].
    + split; reflexivity.
    + destruct (loop_step_prefix Run fuel' (listOrbs_init c lg)) as [Hw Hl].
      split; etransitivity; eassumption.
Qed.

Lemma X14_listOrbs_output_is_kept_witness :
  let script := [inr (mkPage [mkEdge "c1" "a"] true);
                 inr (mkPage [mkEdge "c2" "b"] false)] in
  logger (listOrbs scripted 1 script []).2
  `prefix_of` logger (listOrbs scripted 2 script []).2.
Proof.
  intros script.
  apply (X14_listOrbs_output_is_kept scripted script [] 1 2). lia.
Defined.

(** X15: every request [listOrbs] sends carries exactly one variable,
    [after]; the value set for one round-trip is replaced, not kept, when
    the next one is prepared. *)
Theorem X15_requests_carry_only_after {Conn : Type}
    (Run : Conn -> graphql.Request -> orbList -> Conn * option error * orbList)
    (fuel : nat) (c : Conn) (lg : Logger.t) :
  Forall (fun t => exists cursor,
                     graphql.vars (sent t) = {[ "after" := cursor ]})
         (wire (listOrbs Run fuel c lg).2).
Proof.
  pose (P := fun (_ : status) (st : @ListState Conn) =>
               (forall cursor,
                  graphql.vars (graphql.Var "after" cursor (request st))
                  = {[ "after" := cursor ]}) /\
               Forall (fun t => exists cursor,
                                  graphql.vars (sent t) = {[ "after" := cursor ]})
                      (wire st)).
  assert (Hstep : forall st, P Running st ->
                    match iteration Run st with
                    | Continue st' => P Running st'
                    | Return err st' => P (Returned err) st'
                    end).
  { intros st [Hreq Hwire].
    destruct (Run (conn st) (graphql.Var "after" (currentCursor st) (request st))
                (result st)) as [[cn' err] res'] eqn:HR.
    rewrite (iteration_spec _ _ _ _ _ HR).
    assert (Hreq' : forall cursor,
              graphql.vars
                (graphql.Var "after" cursor
                   (graphql.Var "after" (currentCursor st) (request st)))
              = {[ "after" := cursor ]}).
    { intros cursor. specialize (Hreq cursor). unfold graphql.Var in *.
      cbn [graphql.vars] in *. now rewrite insert_insert_eq. }
    assert (Hwire' : Forall (fun t => exists cursor,
                               graphql.vars (sent t) = {[ "after" := cursor ]})
                       (wire st ++
                        [{| sent := graphql.Var "after" (currentCursor st) (request st);
                            failure := err; received := res' |}])).
    { apply Forall_app. split; [exact Hwire |].
      constructor; [| constructor]. exists (currentCursor st). apply Hreq. }
    destruct err as [e|]; [| destruct (hasNextPage res')]; split; assumption. }
  apply (loop_invariant Run P Hstep fuel (listOrbs_init c lg)).
  split; [| constructor].
  intros cursor. unfold graphql.Var. cbn. apply insert_empty.
Qed.
